(** * TaskQueue (code/task-queue.js): a promise based queue

    A shallow embedding of the [TaskQueue] class and of the part of the
    JavaScript run time it relies on (promises that settle once, the
    once-listeners of [EventEmitter], the calls of task functions that have
    not settled yet), followed by the properties of the queue.

    JavaScript runs the queue on one thread: a method call, the continuation
    of [runTask] after its [await], and a timer callback each run to the end
    before anything else happens.  The model therefore has one atomic
    transition per such piece of code ([step]), and a history of the queue is
    a list of operations ([run]).

    Conventions of the model:
    - a task is a function returning a promise; when and how that promise
      settles is decided by the environment (operations [TaskSettles] and
      [TimerFires]);
    - task functions and listeners registered by the user do not call back
      into the queue while they are being called;
    - numbers are integers ([Z]), [Infinity] apart. *)

From stdpp Require Import prelude strings sorting.
From Stdlib Require Import ZArith Lia Sorting.Sorted.

Local Open Scope Z_scope.

(** ** JavaScript values and promises *)

(** The values tasks produce; errors are values too.  [TypeError] is the
    error of the language itself; its message is the engine's and is left
    out. *)
Inductive Value :=
| undefined
| str (s : string)
| num (z : Z)
| TimeoutError (message : string)
| TypeError
| OtherError (message : string).

(** How a promise settles. *)
Inductive Outcome :=
| Resolves (v : Value)
| Rejects (e : Value).

Inductive PromiseState :=
| Pending
| Fulfilled (v : Value)
| Rejected (e : Value).

Definition outcome_state (o : Outcome) : PromiseState :=
  match o with
  | Resolves v => Fulfilled v
  | Rejects e => Rejected e
  end.

(** A promise settles once: resolving or rejecting a settled promise does
    nothing. *)
Definition settle1 (st : PromiseState) (old : PromiseState) : PromiseState :=
  match old with
  | Pending => st
  | _ => old
  end.

(** The promises made by [new Promise], by index; [alter] leaves the heap
    alone when the index is out of range. *)
Definition settle (p : nat) (st : PromiseState) (heap : list PromiseState)
  : list PromiseState :=
  alter (settle1 st) p heap.

(** [Array.prototype.sort] is stable; with a comparator that is consistent
    (here a difference of integers) every stable sort gives the same array.
    [cmp a b <= 0] keeps [a] before [b]. *)
Fixpoint sort_insert {A} (cmp : A -> A -> Z) (x : A) (l : list A) : list A :=
  match l with
  | [] => [x]
  | y :: l' => if cmp x y <=? 0 then x :: y :: l' else y :: sort_insert cmp x l'
  end.

Fixpoint Array_sort {A} (cmp : A -> A -> Z) (l : list A) : list A :=
  match l with
  | [] => []
  | x :: l' => sort_insert cmp x (Array_sort cmp l')
  end.

(** ** The queue *)

(** [concurrency] is a number or [Infinity]. *)
Inductive Limit :=
| Finite (n : Z)
| Infinity.

(** [runningTasks < concurrency] *)
Definition below (r : Z) (c : Limit) : bool :=
  match c with
  | Finite n => r <? n
  | Infinity => true
  end.

(** A task function, by name: the queue only ever calls it. *)
Definition Task := string.

(** An element of [this.taskQueue].  [resolve] and [reject] are the two
    resolving functions of the promise [add] returned; the model keeps the
    index of that promise. *)
Record Entry := {
  task : Task;
  promise : nat;
  priority : Z
}.

(** A call [task()] made by [runTask] whose promise has not settled.
    [c_promise] is the promise of the entry; [c_wrapper] is the promise made
    by [withTimeout] when the queue has a timeout ([None]: [runTask] awaits
    the task itself).  The timer of [withTimeout] is armed exactly while that
    promise is pending: it is cleared when the task settles and the promise
    is rejected when it fires. *)
Record Call := {
  c_promise : nat;
  c_task : Task;
  c_wrapper : option PromiseState
}.

(** The fields of the object, then the run time around it. *)
Record TaskQueue := {
  concurrency : Limit;
  timeout : Z;
  throwOnTimeout : bool;
  autoStart : bool;
  taskQueue : list Entry;
  runningTasks : Z;
  paused : bool;
  (* EventEmitter: listeners added with once, each resolving a promise *)
  listeners : list (string * nat);
  (* run time *)
  promises : list PromiseState;
  calls : list Call;
  (* observations: the events emitted, the entries started, in order *)
  emitted : list (string * option Value);
  started : list nat
}.

Definition set_taskQueue (q : list Entry) (s : TaskQueue) : TaskQueue :=
  {| concurrency := concurrency s; timeout := timeout s;
     throwOnTimeout := throwOnTimeout s; autoStart := autoStart s;
     taskQueue := q; runningTasks := runningTasks s; paused := paused s;
     listeners := listeners s; promises := promises s; calls := calls s;
     emitted := emitted s; started := started s |}.

Definition set_runningTasks (r : Z) (s : TaskQueue) : TaskQueue :=
  {| concurrency := concurrency s; timeout := timeout s;
     throwOnTimeout := throwOnTimeout s; autoStart := autoStart s;
     taskQueue := taskQueue s; runningTasks := r; paused := paused s;
     listeners := listeners s; promises := promises s; calls := calls s;
     emitted := emitted s; started := started s |}.

Definition set_paused (b : bool) (s : TaskQueue) : TaskQueue :=
  {| concurrency := concurrency s; timeout := timeout s;
     throwOnTimeout := throwOnTimeout s; autoStart := autoStart s;
     taskQueue := taskQueue s; runningTasks := runningTasks s; paused := b;
     listeners := listeners s; promises := promises s; calls := calls s;
     emitted := emitted s; started := started s |}.

Definition set_listeners (l : list (string * nat)) (s : TaskQueue) : TaskQueue :=
  {| concurrency := concurrency s; timeout := timeout s;
     throwOnTimeout := throwOnTimeout s; autoStart := autoStart s;
     taskQueue := taskQueue s; runningTasks := runningTasks s;
     paused := paused s;
     listeners := l; promises := promises s; calls := calls s;
     emitted := emitted s; started := started s |}.

Definition set_promises (h : list PromiseState) (s : TaskQueue) : TaskQueue :=
  {| concurrency := concurrency s; timeout := timeout s;
     throwOnTimeout := throwOnTimeout s; autoStart := autoStart s;
     taskQueue := taskQueue s; runningTasks := runningTasks s;
     paused := paused s;
     listeners := listeners s; promises := h; calls := calls s;
     emitted := emitted s; started := started s |}.

Definition set_calls (c : list Call) (s : TaskQueue) : TaskQueue :=
  {| concurrency := concurrency s; timeout := timeout s;
     throwOnTimeout := throwOnTimeout s; autoStart := autoStart s;
     taskQueue := taskQueue s; runningTasks := runningTasks s;
     paused := paused s;
     listeners := listeners s; promises := promises s; calls := c;
     emitted := emitted s; started := started s |}.

Definition set_emitted (l : list (string * option Value)) (s : TaskQueue)
  : TaskQueue :=
  {| concurrency := concurrency s; timeout := timeout s;
     throwOnTimeout := throwOnTimeout s; autoStart := autoStart s;
     taskQueue := taskQueue s; runningTasks := runningTasks s;
     paused := paused s;
     listeners := listeners s; promises := promises s; calls := calls s;
     emitted := l; started := started s |}.

Definition set_started (l : list nat) (s : TaskQueue) : TaskQueue :=
  {| concurrency := concurrency s; timeout := timeout s;
     throwOnTimeout := throwOnTimeout s; autoStart := autoStart s;
     taskQueue := taskQueue s; runningTasks := runningTasks s;
     paused := paused s;
     listeners := listeners s; promises := promises s; calls := calls s;
     emitted := emitted s; started := l |}.

(** The options object of the constructor; an absent key is [None]. *)
Record Options := {
  o_concurrency : option Limit;
  o_timeout : option Z;
  o_throwOnTimeout : option bool;
  o_autoStart : option bool
}.

(** [constructor({concurrency = Infinity, timeout = 0,
    throwOnTimeout = false, autoStart = true} = {})]: the defaults are
    filled in and the fields are set; nothing is checked. *)
Definition constructor (o : Options) : TaskQueue :=
  let autoStart := default true (o_autoStart o) in
  {| concurrency := default Infinity (o_concurrency o);
     timeout := default 0 (o_timeout o);
     throwOnTimeout := default false (o_throwOnTimeout o);
     autoStart := autoStart;
     taskQueue := [];
     runningTasks := 0;
     paused := negb autoStart;
     listeners := [];
     promises := [];
     calls := [];
     emitted := [];
     started := [] |}.

(** A call either returns or throws. *)
Inductive Completion (A : Type) :=
| Normal (a : A)
| Throw (e : Value).
Arguments Normal {A} a.
Arguments Throw {A} e.

(** What [new TaskQueue(...)] is called with: nothing (or [undefined]),
    [null], or an object, of which the four keys are read. *)
Inductive Argument :=
| no_argument
| null
| object (o : Options).

(** [new TaskQueue(a)]: a missing argument is replaced by the default [{}]
    of the parameter; taking the keys out of [null] throws a [TypeError];
    the body of the constructor has no [throw] and calls nothing that
    throws. *)
Definition new_TaskQueue (a : Argument) : Completion TaskQueue :=
  match a with
  | no_argument =>
      Normal (constructor {| o_concurrency := None; o_timeout := None;
                             o_throwOnTimeout := None; o_autoStart := None |})
  | null => Throw TypeError
  | object o => Normal (constructor o)
  end.

(** [this.emit(ev, arg)]: the once-listeners of [ev] run (each resolves its
    promise with the argument) and are removed. *)
Definition emit (ev : string) (arg : option Value) (s : TaskQueue) : TaskQueue :=
  let hit := filter (λ l, l.1 = ev) (listeners s) in
  let rest := filter (λ l, l.1 ≠ ev) (listeners s) in
  let heap :=
    foldl (λ h l, settle l.2 (Fulfilled (default undefined arg)) h)
          (promises s) hit in
  set_emitted (emitted s ++ [(ev, arg)])
    (set_listeners rest (set_promises heap s)).

(** [withTimeout(task, timeout)] makes a new promise, sets a timer that
    rejects it with [timeout_error] and calls [task()], whose settlement is
    passed on with [then(resolve, reject)]. *)
Definition withTimeout : PromiseState := Pending.

(** [new TimeoutError("Operation timed out")] *)
Definition timeout_error : Value := TimeoutError "Operation timed out".

(** [runTask] up to its [await]: the counter goes up, "active" is emitted,
    the task is called (through [withTimeout] when [this.timeout > 0]). *)
Definition runTask (e : Entry) (s : TaskQueue) : TaskQueue :=
  let s1 := set_runningTasks (runningTasks s + 1) s in
  let s2 := emit "active" None s1 in
  let w := if 0 <? timeout s2 then Some withTimeout else None in
  let c := {| c_promise := promise e; c_task := task e; c_wrapper := w |} in
  set_started (started s2 ++ [promise e]) (set_calls (calls s2 ++ [c]) s2).

(** [processQueue]: the loop takes the head of [this.taskQueue] while the
    queue is not paused and has room.  [waiting] is [this.taskQueue] at each
    turn of the loop. *)
Fixpoint processQueue_loop (waiting : list Entry) (s : TaskQueue) : TaskQueue :=
  match waiting with
  | [] => s
  | e :: rest =>
      if negb (paused s) && below (runningTasks s) (concurrency s)
      then processQueue_loop rest (runTask e (set_taskQueue rest s))
      else s
  end.

Definition processQueue (s : TaskQueue) : TaskQueue :=
  processQueue_loop (taskQueue s) s.

(** [runTask] after its [await]: the awaited promise settled as [o]; [p] is
    the promise of the entry. *)
Definition runTask_resume (p : nat) (o : Outcome) (s : TaskQueue) : TaskQueue :=
  let s1 :=
    match o with
    | Resolves result =>
        emit "completed" (Some result)
          (set_promises (settle p (Fulfilled result) (promises s)) s)
    | Rejects error =>
        emit "error" (Some error)
          (set_promises (settle p (Rejected error) (promises s)) s)
    end in
  let s2 := set_runningTasks (runningTasks s1 - 1) s1 in
  let s3 := if paused s2 then s2 else processQueue s2 in
  let s4 :=
    if bool_decide (taskQueue s3 = []) && (runningTasks s3 =? 0)
    then emit "idle" None s3 else s3 in
  emit "next" None s4.

(** [add(task, {priority = 0} = {})]; the executor of [new Promise] runs at
    once.  Returns the promise and the new state. *)
Definition add (t : Task) (o_priority : option Z) (s : TaskQueue)
  : nat * TaskQueue :=
  let p := length (promises s) in
  let s0 := set_promises (promises s ++ [Pending]) s in
  let e := {| task := t; promise := p; priority := default 0 o_priority |} in
  let s1 :=
    set_taskQueue
      (Array_sort (λ a b, priority a - priority b) (taskQueue s0 ++ [e])) s0 in
  let s2 := emit "add" None s1 in
  (p, if autoStart s2 && negb (paused s2) then processQueue s2 else s2).

Definition pause (s : TaskQueue) : TaskQueue := set_paused true s.

Definition start (s : TaskQueue) : TaskQueue :=
  if paused s then processQueue (set_paused false s) else s.

Definition clear (s : TaskQueue) : TaskQueue := set_taskQueue [] s.

Definition onEmpty (s : TaskQueue) : nat * TaskQueue :=
  let p := length (promises s) in
  let s0 := set_promises (promises s ++ [Pending]) s in
  (p, if bool_decide (taskQueue s0 = [])
      then set_promises (settle p (Fulfilled undefined) (promises s0)) s0
      else set_listeners (listeners s0 ++ [("empty"%string, p)]) s0).

Definition onIdle (s : TaskQueue) : nat * TaskQueue :=
  let p := length (promises s) in
  let s0 := set_promises (promises s ++ [Pending]) s in
  (p, if bool_decide (taskQueue s0 = []) && (runningTasks s0 =? 0)
      then set_promises (settle p (Fulfilled undefined) (promises s0)) s0
      else set_listeners (listeners s0 ++ [("idle"%string, p)]) s0).

(** ** The environment: tasks settle, timers fire *)

Fixpoint lookup_call (p : nat) (cs : list Call) : option Call :=
  match cs with
  | [] => None
  | c :: cs' => if decide (c_promise c = p) then Some c else lookup_call p cs'
  end.

Fixpoint remove_call (p : nat) (cs : list Call) : list Call :=
  match cs with
  | [] => []
  | c :: cs' => if decide (c_promise c = p) then cs' else c :: remove_call p cs'
  end.

Fixpoint update_call (p : nat) (w : PromiseState) (cs : list Call) : list Call :=
  match cs with
  | [] => []
  | c :: cs' =>
      if decide (c_promise c = p)
      then {| c_promise := p; c_task := c_task c; c_wrapper := Some w |} :: cs'
      else c :: update_call p w cs'
  end.

(** [runTask] is still at its [await] for this call. *)
Definition awaited (c : Call) : bool :=
  match c_wrapper c with
  | None | Some Pending => true
  | Some _ => false
  end.

(** The promise returned by the call [task()] of entry [p] settles as [o].
    Without a timeout [runTask] resumes with [o].  With one,
    [then(resolve, reject)] passes [o] to the promise of [withTimeout] and
    [finally] clears the timer: if that promise was pending it settles as
    [o] and [runTask] resumes with [o]; if the timer had rejected it,
    settling it again does nothing and [o] is lost. *)
Definition task_settles (p : nat) (o : Outcome) (s : TaskQueue) : TaskQueue :=
  match lookup_call p (calls s) with
  | None => s
  | Some c =>
      let s1 := set_calls (remove_call p (calls s)) s in
      match c_wrapper c with
      | None => runTask_resume p o s1
      | Some Pending => runTask_resume p o s1
      | Some _ => s1
      end
  end.

(** The timer of [withTimeout] for entry [p] fires: the promise of
    [withTimeout] is rejected and [runTask] resumes in its [catch].  The
    call of the task stays: nothing stops it. *)
Definition timer_fires (p : nat) (s : TaskQueue) : TaskQueue :=
  match lookup_call p (calls s) with
  | Some c =>
      match c_wrapper c with
      | Some Pending =>
          runTask_resume p (Rejects timeout_error)
            (set_calls (update_call p (Rejected timeout_error) (calls s)) s)
      | _ => s
      end
  | None => s
  end.

Inductive Op :=
| Add (t : Task) (o_priority : option Z)
| Pause
| Start
| Clear
| OnEmpty
| OnIdle
| TaskSettles (p : nat) (o : Outcome)
| TimerFires (p : nat).

Definition step (op : Op) (s : TaskQueue) : TaskQueue :=
  match op with
  | Add t o => (add t o s).2
  | Pause => pause s
  | Start => start s
  | Clear => clear s
  | OnEmpty => (onEmpty s).2
  | OnIdle => (onIdle s).2
  | TaskSettles p o => task_settles p o s
  | TimerFires p => timer_fires p s
  end.

(** The operations of [ops] one after the other, the first of the list
    first. *)
Definition run (ops : list Op) (s : TaskQueue) : TaskQueue :=
  foldl (λ s op, step op s) s ops.

(** ** Predicates on states *)

(** The configuration is set by the constructor and never written again. *)
Definition same_config (s s' : TaskQueue) : Prop :=
  concurrency s' = concurrency s ∧ timeout s' = timeout s ∧
  autoStart s' = autoStart s ∧ throwOnTimeout s' = throwOnTimeout s.

(** [runningTasks] is at most the limit, or at most 0 under a negative
    limit. *)
Definition within (s : TaskQueue) : Prop :=
  match concurrency s with
  | Finite n => runningTasks s ≤ Z.max 0 n
  | Infinity => True
  end.

(** No once-listener waits for [ev]. *)
Definition no_listener (ev : string) (s : TaskQueue) : Prop :=
  ∀ l, l ∈ listeners s → l.1 ≠ ev.

(** The call [runTask] makes for an entry. *)
Definition mk_call (tmo : Z) (e : Entry) : Call :=
  {| c_promise := promise e; c_task := task e;
     c_wrapper := if 0 <? tmo then Some withTimeout else None |}.

(** The state after the entries [b] were started in a row and [rest] is
    left waiting. *)
Definition batch (b rest : list Entry) (s : TaskQueue) : TaskQueue :=
  {| concurrency := concurrency s; timeout := timeout s;
     throwOnTimeout := throwOnTimeout s; autoStart := autoStart s;
     taskQueue := rest;
     runningTasks := runningTasks s + Z.of_nat (length b);
     paused := paused s;
     listeners := listeners s; promises := promises s;
     calls := calls s ++ (mk_call (timeout s) <$> b);
     emitted := emitted s ++ replicate (length b) ("active"%string, None);
     started := started s ++ (promise <$> b) |}.

(** The order [add] keeps the waiting array in. *)
Definition by_priority (a b : Entry) : Prop := priority a ≤ priority b.

(** The promises the queue holds a resolving function of: those of the
    waiting entries, of the calls, and of the once-listeners. *)
Definition ids (s : TaskQueue) : list nat :=
  (promise <$> taskQueue s) ++ (c_promise <$> calls s) ++ (snd <$> listeners s).

(** What holds of every state the operations can reach: the listeners are
    those of [onEmpty] and [onIdle]; no promise is held twice; every promise
    held was made; the promises of waiting entries and of awaited calls are
    pending; the waiting array is sorted; what was started no longer waits;
    with a timeout every call goes through [withTimeout]. *)
Record wf (s : TaskQueue) : Prop := Wf {
  wf_names : ∀ l, l ∈ listeners s → l.1 = "empty"%string ∨ l.1 = "idle"%string;
  wf_nodup : NoDup (ids s);
  wf_alloc : ∀ p, p ∈ ids s → (p < length (promises s))%nat;
  wf_waiting : ∀ e, e ∈ taskQueue s → promises s !! promise e = Some Pending;
  wf_awaited :
    ∀ c, c ∈ calls s → awaited c = true →
         promises s !! c_promise c = Some Pending;
  wf_sorted : StronglySorted by_priority (taskQueue s);
  wf_started :
    ∀ p, p ∈ started s →
         (p < length (promises s))%nat ∧ p ∉ promise <$> taskQueue s;
  wf_wrapper : ∀ c, c ∈ calls s → 0 < timeout s → c_wrapper c ≠ None
}.

(** Nothing runs and nothing has run. *)
Definition starved (s : TaskQueue) : Prop :=
  runningTasks s = 0 ∧ calls s = [] ∧ started s = [].

(** [p] is pending and no listener resolves it. *)
Definition held (p : nat) (s : TaskQueue) : Prop :=
  promises s !! p = Some Pending ∧ p ∉ snd <$> listeners s.

(** [p] is pending, belongs to no waiting entry and to no call, and is at
    most awaited by listeners of "empty". *)
Definition quiet (p : nat) (s : TaskQueue) : Prop :=
  promises s !! p = Some Pending ∧
  (p ∉ promise <$> taskQueue s) ∧
  (p ∉ c_promise <$> calls s) ∧
  ∀ l, l ∈ listeners s → l.2 = p → l.1 = "empty"%string.

(** In a queue that starts tasks as they are added and is not paused,
    either nothing waits or the queue is full. *)
Definition drained (s : TaskQueue) : Prop :=
  autoStart s = true → paused s = false →
  taskQueue s = [] ∨ below (runningTasks s) (concurrency s) = false.

(** Equal lists up to the bracketing of [++]. *)
Ltac reassoc := repeat (rewrite <- ?app_assoc; simpl); try done.

(** [a] comes before [b] in [l]. *)
Definition before {A} (a b : A) (l : list A) : Prop :=
  ∃ l1 l2 l3, l = l1 ++ a :: l2 ++ b :: l3.

(** The promise of [x] was made, and the waiting entry of that promise,
    if there is one, is [x]. *)
Definition own (x : Entry) (tq : list Entry) (n : nat) : Prop :=
  (promise x < n)%nat ∧ ∀ e, e ∈ tq → promise e = promise x → e = x.

(** Either [b] has not been started, and if it waits then [a] was started
    or waits too; or [a] was started before [b].  [tq], [st] and [n] are
    the waiting array, the starts so far and the number of promises. *)
Definition in_order (a b : Entry) (tq : list Entry) (st : list nat) (n : nat)
  : Prop :=
  own a tq n ∧ own b tq n ∧
  (((promise b ∉ st) ∧ (b ∈ tq → promise a ∈ st ∨ a ∈ tq)) ∨
   before (promise a) (promise b) st).

(** [in_order] at a state. *)
Definition ordered (a b : Entry) (s : TaskQueue) : Prop :=
  in_order a b (taskQueue s) (started s) (length (promises s)).

(** [new TaskQueue()], and the queue and the first calls of the usage
    section of the file. *)
Definition no_options : Options :=
  {| o_concurrency := None; o_timeout := None;
     o_throwOnTimeout := None; o_autoStart := None |}.

Definition usage_options : Options :=
  {| o_concurrency := Some (Finite 2); o_timeout := Some 8000;
     o_throwOnTimeout := Some true; o_autoStart := Some false |}.

Definition usage_ops : list Op :=
  [Add "Task 1" (Some 2); Add "Task 2" (Some 1); Add "Task 3" (Some 2);
   Add "Task 4" (Some 1); Add "Task 5" (Some 2); Add "Task 6" (Some 1);
   Add "Task 7" (Some 2); Add "Task 8" (Some 1);
   Start; OnEmpty; OnIdle;
   TaskSettles 1 (Resolves (str "Task 2 result"));
   TaskSettles 3 (Resolves (str "Task 4 result"))].

(** ** Further predicates on states *)

(** The flag [throwOnTimeout] set to [b], everything else as it is. *)
Definition set_throwOnTimeout (b : bool) (s : TaskQueue) : TaskQueue :=
  {| concurrency := concurrency s; timeout := timeout s;
     throwOnTimeout := b; autoStart := autoStart s;
     taskQueue := taskQueue s; runningTasks := runningTasks s;
     paused := paused s;
     listeners := listeners s; promises := promises s; calls := calls s;
     emitted := emitted s; started := started s |}.

(** The options [o] with the key [throwOnTimeout] given as [b]. *)
Definition with_throwOnTimeout (b : option bool) (o : Options) : Options :=
  {| o_concurrency := o_concurrency o; o_timeout := o_timeout o;
     o_throwOnTimeout := b; o_autoStart := o_autoStart o |}.

(** The calls [runTask] is still awaiting. *)
Definition awaiting (s : TaskQueue) : nat :=
  length (filter (λ c, awaited c = true) (calls s)).

(** How often [ev] was emitted. *)
Definition count_event (ev : string) (s : TaskQueue) : nat :=
  length (filter (λ x : string * option Value, x.1 = ev) (emitted s)).

(** The counter is what the events say: one "active" per start, one
    "completed" or "error" per task that is over for [runTask]. *)
Definition balanced (s : TaskQueue) : Prop :=
  runningTasks s =
    Z.of_nat (count_event "active" s) - Z.of_nat (count_event "completed" s)
    - Z.of_nat (count_event "error" s) ∧
  count_event "active" s = length (started s).

(** No failure has been reported: no promise is rejected and "error" was
    not emitted. *)
Definition unreported (s : TaskQueue) : Prop :=
  (∀ p e, promises s !! p ≠ Some (Rejected e)) ∧
  count_event "error" s = 0%nat.

(** Nothing waits and the counter is 0: the test of [onIdle] and of the
    [finally] of [runTask]. *)
Definition is_idle (s : TaskQueue) : Prop :=
  taskQueue s = [] ∧ runningTasks s = 0.

(** By priority value, then by promise: promises are numbered as [add]
    makes them, so among equal priorities the entry added first is
    smaller. *)
Definition fifo (a b : Entry) : Prop :=
  priority a < priority b ∨
  (priority a = priority b ∧ (promise a < promise b)%nat).

(** [p] is pending, belongs to no waiting entry and to no call, and a
    once-listener of [ev], and of no other event, resolves it. *)
Definition waiting_for (ev : string) (p : nat) (s : TaskQueue) : Prop :=
  promises s !! p = Some Pending ∧
  (p ∉ promise <$> taskQueue s) ∧
  (p ∉ c_promise <$> calls s) ∧
  (ev, p) ∈ listeners s ∧
  ∀ l, l ∈ listeners s → l.2 = p → l.1 = ev.

(** No call goes through [withTimeout]. *)
Definition no_wrapper (s : TaskQueue) : Prop :=
  ∀ c, c ∈ calls s → c_wrapper c = None.

(** ** observeChanges (code/observe-url-params.js)

    [observeChanges(queryParam, callback)] reads the parameter once, then
    registers [observerCallback] for the load event and for every mutation
    under [body].  What the page's URL holds when the handler runs is the
    environment's: [observerCallback] takes the value
    [new URLSearchParams(window.location.search).get(queryParam)] returns
    then, a string or [null] ([None]). *)

(** The variable [oldParamValue] of the closure, and the arguments
    [callback] was called with, in order. *)
Record Observer := {
  oldParamValue : option string;
  callback_args : list (option string)
}.

(** The state after [observeChanges] read the parameter. *)
Definition observeChanges (initial : option string) : Observer :=
  {| oldParamValue := initial; callback_args := [] |}.

Definition observerCallback (newParamValue : option string) (ob : Observer)
  : Observer :=
  if decide (oldParamValue ob ≠ newParamValue)
  then {| oldParamValue := newParamValue;
          callback_args := callback_args ob ++ [newParamValue] |}
  else ob.

(** The handler runs once per value of [seen], the first of the list
    first. *)
Definition observe (seen : list (option string)) (ob : Observer) : Observer :=
  foldl (λ ob v, observerCallback v ob) ob seen.

(** No two neighbours of the list are equal. *)
Fixpoint no_repeat {A} (l : list A) : Prop :=
  match l with
  | x :: (y :: _) as l' => x ≠ y ∧ no_repeat l'
  | _ => True
  end.

(** ** Basic facts *)

Lemma same_config_refl s : same_config s s.
Proof. by repeat split. Qed.

Lemma same_config_trans s1 s2 s3 :
  same_config s1 s2 → same_config s2 s3 → same_config s1 s3.
Proof. unfold same_config. intros (?&?&?&?) (?&?&?&?). repeat split; congruence. Qed.

Lemma processQueue_loop_config w s :
  same_config s (processQueue_loop w s) ∧
  paused (processQueue_loop w s) = paused s.
Proof.
  revert s. induction w as [|e w IH]; intros s; simpl.
  - split; [apply same_config_refl | done].
  - destruct (negb (paused s) && below (runningTasks s) (concurrency s)).
    + destruct (IH (runTask e (set_taskQueue w s))) as [Hc Hp].
      split; [| by rewrite Hp].
      eapply same_config_trans; [| exact Hc]. by repeat split.
    + split; [apply same_config_refl | done].
Qed.

Lemma processQueue_config s :
  same_config s (processQueue s) ∧ paused (processQueue s) = paused s.
Proof. apply processQueue_loop_config. Qed.

Lemma runTask_resume_config p o s : same_config s (runTask_resume p o s).
Proof.
  unfold runTask_resume.
  set (s1 := match o with Resolves _ => _ | Rejects _ => _ end).
  assert (H1 : same_config s s1) by (subst s1; destruct o; by repeat split).
  set (s2 := set_runningTasks _ s1).
  assert (H2 : same_config s s2) by (subst s2; exact H1).
  set (s3 := if paused s2 then s2 else processQueue s2).
  assert (H3 : same_config s s3).
  { subst s3. destruct (paused s2); [done |].
    eapply same_config_trans; [exact H2 | apply processQueue_config]. }
  destruct (bool_decide (taskQueue s3 = []) && (runningTasks s3 =? 0));
    (eapply same_config_trans; [exact H3 |]); by repeat split.
Qed.

Lemma step_config op s : same_config s (step op s).
Proof.
  destruct op; simpl.
  - unfold add; simpl. case_match; [| by repeat split].
    eapply same_config_trans; [| apply processQueue_config]. by repeat split.
  - by repeat split.
  - unfold start. case_match; [| apply same_config_refl].
    eapply same_config_trans; [| apply processQueue_config]. by repeat split.
  - by repeat split.
  - unfold onEmpty; simpl. case_match; by repeat split.
  - unfold onIdle; simpl. case_match; by repeat split.
  - unfold task_settles. repeat case_match; try apply same_config_refl;
      try (by repeat split);
      (eapply same_config_trans; [| apply runTask_resume_config]);
      by repeat split.
  - unfold timer_fires. repeat case_match; try apply same_config_refl.
    eapply same_config_trans; [| apply runTask_resume_config]. by repeat split.
Qed.

Lemma run_snoc ops op s : run (ops ++ [op]) s = step op (run ops s).
Proof. unfold run. by rewrite foldl_app. Qed.

Lemma run_app ops ops' s : run (ops ++ ops') s = run ops' (run ops s).
Proof. unfold run. by rewrite foldl_app. Qed.

Lemma run_config ops s : same_config s (run ops s).
Proof.
  induction ops as [|op ops IH] using rev_ind.
  - apply same_config_refl.
  - rewrite run_snoc. eapply same_config_trans; [exact IH | apply step_config].
Qed.

(** An invariant of every step holds in every reachable state. *)
Lemma run_invariant (P : TaskQueue → Prop) s ops :
  (∀ op s, P s → P (step op s)) → P s → P (run ops s).
Proof.
  intros Hstep H0. induction ops as [|op ops IH] using rev_ind; [done |].
  rewrite run_snoc. by apply Hstep.
Qed.

(** ** The number of running tasks *)

Lemma processQueue_loop_within w s : within s → within (processQueue_loop w s).
Proof.
  revert s. induction w as [|e w IH]; intros s Hs; simpl; [done |].
  destruct (negb (paused s) && below (runningTasks s) (concurrency s)) eqn:Hc;
    [| done].
  apply IH. apply andb_true_iff in Hc as [_ Hb].
  unfold within in *; simpl. destruct (concurrency s); [| done].
  simpl in Hb. lia.
Qed.

Lemma runTask_resume_within p o s : within s → within (runTask_resume p o s).
Proof.
  intros Hs. unfold runTask_resume.
  set (s1 := match o with Resolves _ => _ | Rejects _ => _ end).
  assert (H1 : within (set_runningTasks (runningTasks s1 - 1) s1)).
  { subst s1. unfold within in *. destruct o; simpl;
      destruct (concurrency s); try done; lia. }
  set (s2 := set_runningTasks _ s1) in *.
  assert (H3 : within (if paused s2 then s2 else processQueue s2)).
  { destruct (paused s2); [done |]. by apply processQueue_loop_within. }
  set (s3 := if paused s2 then s2 else processQueue s2) in *.
  by destruct (bool_decide (taskQueue s3 = []) && (runningTasks s3 =? 0)).
Qed.

Lemma step_within op s : within s → within (step op s).
Proof.
  intros Hs. destruct op; simpl; try done.
  - unfold add; simpl. case_match; [| done].
    by apply processQueue_loop_within.
  - unfold start. case_match; [| done]. by apply processQueue_loop_within.
  - unfold onEmpty; simpl. by case_match.
  - unfold onIdle; simpl. by case_match.
  - unfold task_settles. repeat case_match; try done;
      by apply runTask_resume_within.
  - unfold timer_fires. repeat case_match; try done.
    by apply runTask_resume_within.
Qed.

Lemma reachable_within o ops : within (run ops (constructor o)).
Proof.
  apply run_invariant; [apply step_within |].
  unfold within; simpl. destruct (default Infinity (o_concurrency o)); lia.
Qed.

(** ** Events and dispatch *)

Lemma filter_none {A} (P : A → Prop) `{∀ x, Decision (P x)} (l : list A) :
  (∀ x, x ∈ l → ¬ P x) → filter P l = [].
Proof.
  induction l as [|x l IH]; intros Hl; [done |].
  rewrite filter_cons. destruct (decide (P x)) as [Hx|_].
  - exfalso. apply (Hl x); [left | done].
  - apply IH. intros y Hy. apply Hl. by right.
Qed.

Lemma filter_all {A} (P : A → Prop) `{∀ x, Decision (P x)} (l : list A) :
  (∀ x, x ∈ l → P x) → filter P l = l.
Proof.
  induction l as [|x l IH]; intros Hl; [done |].
  rewrite filter_cons. destruct (decide (P x)) as [_|Hx].
  - f_equal. apply IH. intros y Hy. apply Hl. by right.
  - exfalso. apply Hx, Hl. left.
Qed.

(** Emitting an event nobody waits for only adds to the log. *)
Lemma emit_quiet ev arg s :
  no_listener ev s → emit ev arg s = set_emitted (emitted s ++ [(ev, arg)]) s.
Proof.
  intros Hq. unfold emit.
  rewrite (filter_none (λ l, l.1 = ev)) by exact Hq.
  rewrite (filter_all (λ l, l.1 ≠ ev)) by exact Hq.
  by destruct s.
Qed.

Lemma batch_nil s : batch [] (taskQueue s) s = s.
Proof.
  destruct s; unfold batch; simpl. rewrite Z.add_0_r, !app_nil_r. done.
Qed.

Lemma batch_cons e b rest w s :
  no_listener "active" s →
  batch b rest (runTask e (set_taskQueue w s)) = batch (e :: b) rest s.
Proof.
  intros Hq. unfold runTask. rewrite emit_quiet by exact Hq.
  unfold batch; simpl. f_equal.
  - lia.
  - by rewrite <- app_assoc.
  - by rewrite <- app_assoc.
  - by rewrite <- app_assoc.
Qed.

(** [processQueue] starts a prefix of the waiting entries, in their order,
    and stops when the queue is paused, full or empty. *)
Lemma processQueue_loop_batch w s :
  taskQueue s = w → no_listener "active" s →
  ∃ k : nat,
    (k ≤ length w)%nat ∧
    processQueue_loop w s = batch (take k w) (drop k w) s ∧
    (paused s = true ∨
     below (runningTasks s + Z.of_nat k) (concurrency s) = false ∨
     drop k w = []) ∧
    (k ≠ 0%nat → paused s = false).
Proof.
  revert s. induction w as [|e w IH]; intros s Hw Hq.
  - exists 0%nat. simpl. pose proof (batch_nil s) as Hb. rewrite Hw in Hb.
    rewrite Hb. repeat split; auto. done.
  - simpl.
    destruct (negb (paused s) && below (runningTasks s) (concurrency s)) eqn:Hc.
    + apply andb_true_iff in Hc as [Hp Hb]. apply negb_true_iff in Hp.
      destruct (IH (runTask e (set_taskQueue w s))) as (k & Hk & Heq & Hstop & _).
      { unfold runTask. by rewrite emit_quiet. }
      { unfold runTask. by rewrite emit_quiet. }
      exists (S k). split; [simpl; lia |]. split.
      { rewrite Heq. simpl. by apply batch_cons. }
      split; [| done].
      unfold runTask in Hstop. rewrite emit_quiet in Hstop by exact Hq.
      simpl in Hstop.
      replace (runningTasks s + Z.of_nat (S k))
        with (runningTasks s + 1 + Z.of_nat k) by lia.
      exact Hstop.
    + exists 0%nat. simpl. split; [lia |]. split.
      { pose proof (batch_nil s) as Hb. rewrite Hw in Hb. by rewrite Hb. }
      split; [| done].
      apply andb_false_iff in Hc as [Hp|Hb].
      * left. by apply negb_false_iff.
      * right; left. by rewrite Z.add_0_r.
Qed.

Lemma processQueue_batch s :
  no_listener "active" s →
  ∃ k : nat,
    (k ≤ length (taskQueue s))%nat ∧
    processQueue s = batch (take k (taskQueue s)) (drop k (taskQueue s)) s ∧
    (paused s = true ∨
     below (runningTasks s + Z.of_nat k) (concurrency s) = false ∨
     drop k (taskQueue s) = []) ∧
    (k ≠ 0%nat → paused s = false).
Proof. intros Hq. by apply processQueue_loop_batch. Qed.

(** ** Sorting *)

Lemma sort_insert_perm {A} (cmp : A → A → Z) x l :
  sort_insert cmp x l ≡ₚ x :: l.
Proof.
  induction l as [|y l IH]; simpl; [done |].
  destruct (cmp x y <=? 0); [done |].
  rewrite IH. apply Permutation_swap.
Qed.

Lemma Array_sort_perm {A} (cmp : A → A → Z) l : Array_sort cmp l ≡ₚ l.
Proof.
  induction l as [|x l IH]; simpl; [done |].
  by rewrite sort_insert_perm, IH.
Qed.

Lemma sort_insert_sorted x l :
  StronglySorted by_priority l →
  StronglySorted by_priority (sort_insert (λ a b, priority a - priority b) x l).
Proof.
  induction 1 as [|y l Hl IH Hy]; simpl.
  - repeat constructor.
  - destruct (priority x - priority y <=? 0) eqn:Hc.
    + apply Z.leb_le in Hc. constructor; [by constructor |].
      constructor; [unfold by_priority; lia |].
      eapply Forall_impl; [exact Hy |]. unfold by_priority. intros; lia.
    + apply Z.leb_gt in Hc. constructor; [exact IH |].
      rewrite sort_insert_perm. constructor; [unfold by_priority; lia | done].
Qed.

Lemma Array_sort_sorted l :
  StronglySorted by_priority (Array_sort (λ a b, priority a - priority b) l).
Proof.
  induction l as [|x l IH]; simpl; [constructor |]. by apply sort_insert_sorted.
Qed.

(** In a sorted array an entry of smaller priority value comes first. *)
Lemma sorted_before l i j a b :
  StronglySorted by_priority l →
  l !! i = Some a → l !! j = Some b → priority a < priority b → (i < j)%nat.
Proof.
  intros Hs. revert i j. induction Hs as [|x l Hl IH Hx]; intros i j Ha Hb Hlt.
  - done.
  - destruct i as [|i], j as [|j]; simpl in *.
    + simplify_eq. lia.
    + lia.
    + simplify_eq. rewrite Forall_forall in Hx.
      apply list_elem_of_lookup_2 in Ha. apply Hx in Ha.
      unfold by_priority in Ha. lia.
    + assert (i < j)%nat by (by apply IH). lia.
Qed.

(** ** The heap of promises *)

Lemma settle_length p st h : length (settle p st h) = length h.
Proof. apply length_alter. Qed.

Lemma settle_other p q st h : p ≠ q → settle p st h !! q = h !! q.
Proof. apply list_lookup_alter_ne. Qed.

Lemma settle_pending p st h :
  h !! p = Some Pending → settle p st h !! p = Some st.
Proof. intros H. unfold settle. by rewrite list_lookup_alter_eq, H. Qed.

(** A settled promise keeps its state. *)
Lemma settle_settled p q st h x :
  h !! q = Some x → x ≠ Pending → settle p st h !! q = Some x.
Proof.
  intros Hq Hx. destruct (decide (p = q)) as [->|Hne].
  - unfold settle. rewrite list_lookup_alter_eq, Hq. simpl. by destruct x.
  - by rewrite settle_other.
Qed.

Lemma fire_length (v : Value) hit h :
  length (foldl (λ h (l : string * nat), settle l.2 (Fulfilled v) h) h hit)
  = length h.
Proof.
  revert h. induction hit as [|l hit IH]; intros h; simpl; [done |].
  by rewrite IH, settle_length.
Qed.

Lemma fire_other (v : Value) hit h q :
  q ∉ snd <$> hit →
  foldl (λ h (l : string * nat), settle l.2 (Fulfilled v) h) h hit !! q = h !! q.
Proof.
  revert h. induction hit as [|l hit IH]; intros h Hq; simpl; [done |].
  rewrite fmap_cons, not_elem_of_cons in Hq. destruct Hq as [Hne Hq].
  rewrite IH by done. by apply settle_other.
Qed.

Lemma fire_settled (v : Value) hit h q x :
  h !! q = Some x → x ≠ Pending →
  foldl (λ h (l : string * nat), settle l.2 (Fulfilled v) h) h hit !! q = Some x.
Proof.
  revert h. induction hit as [|l hit IH]; intros h Hq Hx; simpl; [done |].
  apply IH; [| done]. by apply settle_settled.
Qed.

(** ** Calls *)

Lemma lookup_call_Some p cs c :
  lookup_call p cs = Some c → c ∈ cs ∧ c_promise c = p.
Proof.
  induction cs as [|c' cs IH]; simpl; [done |].
  destruct (decide (c_promise c' = p)).
  - intros [= ->]. split; [left | done].
  - intros H. destruct (IH H). split; [by right | done].
Qed.

Lemma lookup_call_None p cs : lookup_call p cs = None → p ∉ c_promise <$> cs.
Proof.
  induction cs as [|c' cs IH]; simpl; [intros _; apply not_elem_of_nil |].
  destruct (decide (c_promise c' = p)); [done |].
  intros H. apply not_elem_of_cons. split; [done | by apply IH].
Qed.

Lemma lookup_call_unique p cs c :
  NoDup (c_promise <$> cs) → c ∈ cs → c_promise c = p →
  lookup_call p cs = Some c.
Proof.
  induction cs as [|c' cs IH]; simpl; intros Hnd Hc Hp; [by inv Hc |].
  apply NoDup_cons in Hnd as [Hnotin Hnd].
  destruct (decide (c_promise c' = p)) as [Heq|Hne].
  - apply elem_of_cons in Hc as [->|Hc]; [done |].
    exfalso. apply Hnotin. rewrite Heq, <- Hp. by apply list_elem_of_fmap_2.
  - apply elem_of_cons in Hc as [->|Hc]; [done |]. by apply IH.
Qed.

Lemma remove_call_sublist p cs : remove_call p cs `sublist_of` cs.
Proof.
  induction cs as [|c cs IH]; simpl; [done |].
  destruct (decide (c_promise c = p)).
  - by apply sublist_cons.
  - by apply sublist_skip.
Qed.

Lemma remove_call_gone p cs :
  NoDup (c_promise <$> cs) → p ∉ c_promise <$> remove_call p cs.
Proof.
  induction cs as [|c cs IH]; simpl; intros Hnd; [apply not_elem_of_nil |].
  apply NoDup_cons in Hnd as [Hnotin Hnd].
  destruct (decide (c_promise c = p)) as [<-|Hne]; [done |].
  rewrite fmap_cons. apply not_elem_of_cons. split; [done | by apply IH].
Qed.

Lemma update_call_ids p w cs :
  c_promise <$> update_call p w cs = c_promise <$> cs.
Proof.
  induction cs as [|c cs IH]; simpl; [done |].
  destruct (decide (c_promise c = p)) as [<-|Hne]; [done |].
  rewrite !fmap_cons. by f_equal.
Qed.

Lemma update_call_elem p w cs c :
  NoDup (c_promise <$> cs) → c ∈ update_call p w cs →
  (c ∈ cs ∧ c_promise c ≠ p) ∨ (c_promise c = p ∧ c_wrapper c = Some w).
Proof.
  induction cs as [|c' cs IH]; simpl; [by intros _ []%elem_of_nil |].
  intros [Hnotin Hnd]%NoDup_cons.
  destruct (decide (c_promise c' = p)) as [Heq|Hne].
  - intros [->|H]%elem_of_cons; [by right |]. left. split; [by right |].
    intros Hp. apply Hnotin. rewrite Heq, <- Hp. by apply list_elem_of_fmap_2.
  - intros [->|H]%elem_of_cons; [left; split; [left | done] |].
    destruct (IH Hnd H) as [[? ?]|?]; [left; split; [by right | done] | by right].
Qed.

(** ** Well-formed states *)

Lemma wf_disjoint s :
  wf s →
  NoDup (promise <$> taskQueue s) ∧ NoDup (c_promise <$> calls s) ∧
  (∀ q, q ∈ promise <$> taskQueue s →
        (q ∉ c_promise <$> calls s) ∧ (q ∉ snd <$> listeners s)) ∧
  (∀ q, q ∈ c_promise <$> calls s → q ∉ snd <$> listeners s).
Proof.
  intros Hwf. pose proof (wf_nodup s Hwf) as Hd. unfold ids in Hd.
  apply NoDup_app in Hd as (H1 & H12 & Hd).
  apply NoDup_app in Hd as (H2 & H23 & _).
  repeat split; auto; intros Hq; eapply H12; eauto; apply elem_of_app; auto.
Qed.

Lemma wf_no_listener ev s :
  wf s → ev ≠ "empty"%string → ev ≠ "idle"%string → no_listener ev s.
Proof.
  intros Hwf H1 H2 l Hl Heq. destruct (wf_names s Hwf l Hl); congruence.
Qed.

Lemma wf_constructor o : wf (constructor o).
Proof.
  constructor; simpl; try (intros ? []%elem_of_nil); try constructor.
Qed.

(** Only some fields matter. *)
Lemma wf_same s s' :
  taskQueue s' = taskQueue s → calls s' = calls s →
  listeners s' = listeners s → promises s' = promises s →
  started s' = started s → timeout s' = timeout s →
  wf s → wf s'.
Proof.
  intros E1 E2 E3 E4 E5 E6 [].
  constructor; unfold ids; rewrite ?E1, ?E2, ?E3, ?E4, ?E5, ?E6; auto.
Qed.

Lemma wf_emit ev arg s : wf s → wf (emit ev arg s).
Proof.
  intros Hwf. destruct (wf_disjoint s Hwf) as (_ & _ & Htq & Hcs).
  destruct Hwf as [Hn Hd Ha Hw Haw Hso Hst Hwr].
  assert (Hsub : ids (emit ev arg s) `sublist_of` ids s).
  { unfold ids; simpl. apply sublist_app; [done |]. apply sublist_app; [done |].
    apply fmap_sublist, sublist_filter. }
  assert (Hhit : ∀ q, q ∈ snd <$> filter (λ l, l.1 = ev) (listeners s) →
                      q ∈ snd <$> listeners s).
  { intros q Hq. eapply elem_of_sublist; [exact Hq |].
    apply fmap_sublist, sublist_filter. }
  constructor; simpl.
  - intros l [_ Hl]%list_elem_of_filter. auto.
  - eapply sublist_NoDup; eauto.
  - intros p Hp. rewrite fire_length. apply Ha. eapply elem_of_sublist; eauto.
  - intros e He. rewrite fire_other; [auto |].
    intros Hq%Hhit. eapply Htq; [| exact Hq]. by apply list_elem_of_fmap_2.
  - intros c Hc Hawait. rewrite fire_other; [auto |].
    intros Hq%Hhit. eapply Hcs; [| exact Hq]. by apply list_elem_of_fmap_2.
  - done.
  - intros p Hp. rewrite fire_length. auto.
  - done.
Qed.

Lemma wf_settle p st s :
  wf s → p ∉ promise <$> taskQueue s →
  (∀ c, c ∈ calls s → c_promise c = p → awaited c = false) →
  wf (set_promises (settle p st (promises s)) s).
Proof.
  intros [Hn Hd Ha Hw Haw Hso Hst Hwr] Hp Hc.
  constructor; simpl; auto.
  - intros q Hq. rewrite settle_length. auto.
  - intros e He. rewrite settle_other; [auto |].
    intros ->. apply Hp. by apply list_elem_of_fmap_2.
  - intros c Hin Hawait. rewrite settle_other; [auto |].
    intros Heq. symmetry in Heq. specialize (Hc c Hin Heq). congruence.
  - intros q Hq. rewrite settle_length. auto.
Qed.

Lemma mk_call_ids tmo (b : list Entry) :
  c_promise <$> (mk_call tmo <$> b) = promise <$> b.
Proof. induction b as [|e b IH]; [done |]. rewrite !fmap_cons. by f_equal. Qed.

Lemma wf_batch b rest s : wf s → taskQueue s = b ++ rest → wf (batch b rest s).
Proof.
  intros Hwf Htq. destruct (wf_disjoint s Hwf) as (Hnd & _ & _ & _).
  destruct Hwf as [Hn Hd Ha Hw Haw Hso Hst Hwr].
  assert (Hperm : ids (batch b rest s) ≡ₚ ids s).
  { unfold ids; simpl. rewrite Htq, !fmap_app, mk_call_ids.
    solve_Permutation. }
  rewrite Htq in *. rewrite fmap_app in Hnd.
  apply NoDup_app in Hnd as (_ & Hbr & _).
  constructor; simpl.
  - done.
  - by rewrite Hperm.
  - intros p. rewrite Hperm. auto.
  - intros e He. apply Hw, elem_of_app. auto.
  - intros c [Hc|Hc]%elem_of_app Hawait; [auto |].
    apply list_elem_of_fmap in Hc as (e & -> & He). simpl.
    apply Hw, elem_of_app. auto.
  - eapply StronglySorted_app_1_r; eauto.
  - intros p [Hp|Hp]%elem_of_app.
    + destruct (Hst p Hp) as [Hlt Hnin]. split; [done |].
      intros Hin. apply Hnin. rewrite fmap_app. apply elem_of_app. auto.
    + split; [| by apply Hbr].
      apply Ha. unfold ids. rewrite Htq, fmap_app, !elem_of_app. auto.
  - intros c [Hc|Hc]%elem_of_app Hpos; [auto |].
    apply list_elem_of_fmap in Hc as (e & -> & He). simpl.
    apply Z.ltb_lt in Hpos. by rewrite Hpos.
Qed.

Lemma wf_processQueue s : wf s → wf (processQueue s).
Proof.
  intros Hwf.
  destruct (processQueue_batch s) as (k & _ & -> & _).
  { by apply wf_no_listener. }
  apply wf_batch; [done |]. by rewrite take_drop.
Qed.

(** [new Promise]: the heap grows by one pending promise. *)
Lemma wf_new_promise s : wf s → wf (set_promises (promises s ++ [Pending]) s).
Proof.
  intros [Hn Hd Ha Hw Haw Hso Hst Hwr].
  constructor; simpl; auto.
  - intros p Hp. rewrite length_app. simpl. specialize (Ha p Hp). lia.
  - intros e He. apply lookup_app_l_Some. auto.
  - intros c Hc Hawait. apply lookup_app_l_Some. auto.
  - intros p Hp. rewrite length_app. simpl. destruct (Hst p Hp). split; [lia | done].
Qed.

Lemma fresh_not_id s : wf s → length (promises s) ∉ ids s.
Proof. intros Hwf Hin. apply (wf_alloc s Hwf) in Hin. lia. Qed.

(** The first two statements of [add]: the entry of a new promise is pushed
    and the array is sorted. *)
Lemma wf_push t prio s :
  wf s →
  wf (set_taskQueue
        (Array_sort (λ a b, priority a - priority b)
           (taskQueue s ++
              [{| task := t; promise := length (promises s);
                  priority := prio |}]))
        (set_promises (promises s ++ [Pending]) s)).
Proof.
  intros Hwf. pose proof (fresh_not_id s Hwf) as Hfresh.
  destruct Hwf as [Hn Hd Ha Hw Haw Hso Hst Hwr].
  set (e := {| task := t; promise := length (promises s); priority := prio |}).
  assert (Hperm : Array_sort (λ a b, priority a - priority b) (taskQueue s ++ [e])
                  ≡ₚ e :: taskQueue s).
  { rewrite Array_sort_perm. solve_Permutation. }
  constructor; simpl.
  - done.
  - unfold ids; simpl. rewrite Hperm. rewrite fmap_cons. simpl.
    apply NoDup_cons. split; [exact Hfresh | exact Hd].
  - unfold ids; simpl. intros p. rewrite Hperm, fmap_cons. simpl.
    rewrite length_app. simpl. intros [->|Hp]%elem_of_cons; [lia |].
    specialize (Ha p Hp). lia.
  - intros e'. rewrite Hperm. intros [->|He]%elem_of_cons.
    + simpl. by rewrite lookup_app_r, Nat.sub_diag.
    + apply lookup_app_l_Some. auto.
  - intros c Hc Hawait. apply lookup_app_l_Some. auto.
  - apply Array_sort_sorted.
  - intros p Hp. destruct (Hst p Hp) as [Hlt Hnin]. rewrite length_app. simpl.
    split; [lia |]. rewrite Hperm, fmap_cons. simpl.
    apply not_elem_of_cons. split; [lia | done].
  - done.
Qed.

Lemma wf_runTask_resume p o s :
  wf s → p ∉ promise <$> taskQueue s →
  (∀ c, c ∈ calls s → c_promise c = p → awaited c = false) →
  wf (runTask_resume p o s).
Proof.
  intros Hwf Hp Hc. unfold runTask_resume.
  set (s1 := match o with Resolves _ => _ | Rejects _ => _ end).
  assert (H1 : wf s1).
  { subst s1. destruct o; by apply wf_emit, wf_settle. }
  set (s2 := set_runningTasks (runningTasks s1 - 1) s1).
  assert (H2 : wf s2) by (by apply (wf_same s1)).
  set (s3 := if paused s2 then s2 else processQueue s2).
  assert (H3 : wf s3).
  { subst s3. destruct (paused s2); [done |]. by apply wf_processQueue. }
  apply wf_emit.
  destruct (bool_decide (taskQueue s3 = []) && (runningTasks s3 =? 0));
    [by apply wf_emit | done].
Qed.

Lemma wf_add t o s : wf s → wf (add t o s).2.
Proof.
  intros Hwf. unfold add; simpl.
  match goal with |- wf (if _ then processQueue ?x else ?x) =>
    assert (Hx : wf x) end.
  { apply (wf_emit "add" None). apply wf_push. exact Hwf. }
  case_match; [by apply wf_processQueue | done].
Qed.

Lemma wf_start s : wf s → wf (start s).
Proof.
  intros Hwf. unfold start. case_match; [| done].
  apply wf_processQueue. by apply (wf_same s).
Qed.

Lemma wf_clear s : wf s → wf (clear s).
Proof.
  intros Hwf. destruct (wf_disjoint s Hwf) as (_ & _ & _ & Hcs).
  destruct Hwf as [Hn Hd Ha Hw Haw Hso Hst Hwr].
  constructor; simpl; auto.
  - unfold ids in *; simpl. eapply sublist_NoDup; [exact Hd |].
    by apply sublist_inserts_l.
  - intros p Hp. apply Ha. unfold ids in *; simpl in *.
    apply elem_of_app. by right.
  - intros e []%elem_of_nil.
  - constructor.
  - intros p Hp. destruct (Hst p Hp). split; [done |]. apply not_elem_of_nil.
Qed.

(** The promise of [onEmpty] and [onIdle]: resolved at once or left with a
    once-listener. *)
Lemma wf_waiter (b : bool) ev s :
  wf s → ev = "empty"%string ∨ ev = "idle"%string →
  let p := length (promises s) in
  let s0 := set_promises (promises s ++ [Pending]) s in
  wf (if b then set_promises (settle p (Fulfilled undefined) (promises s0)) s0
      else set_listeners (listeners s0 ++ [(ev, p)]) s0).
Proof.
  intros Hwf Hev p s0. pose proof (fresh_not_id s Hwf) as Hfresh.
  assert (H0 : wf s0) by (by apply wf_new_promise).
  destruct b.
  - apply wf_settle; [done | |].
    + intros Hin. apply Hfresh. unfold ids. apply elem_of_app. by left.
    + intros c Hc Heq. exfalso. apply Hfresh. unfold ids.
      rewrite !elem_of_app. right; left. subst p. rewrite <- Heq.
      by apply list_elem_of_fmap_2.
  - destruct H0 as [Hn Hd Ha Hw Haw Hso Hst Hwr].
    assert (Hperm : ids (set_listeners (listeners s ++ [(ev, p)]) s0)
                    ≡ₚ p :: ids s).
    { unfold ids; simpl. rewrite fmap_app. simpl. solve_Permutation. }
    constructor; simpl; auto.
    + intros l [Hl|Hl%list_elem_of_singleton]%elem_of_app; [auto |].
      subst l. exact Hev.
    + rewrite Hperm. apply NoDup_cons. split; [done | by apply wf_nodup].
    + intros q. rewrite Hperm. rewrite length_app. simpl.
      intros [->|Hq]%elem_of_cons; [subst p; lia |].
      apply (wf_alloc s Hwf) in Hq. lia.
Qed.

Lemma wf_onEmpty s : wf s → wf (onEmpty s).2.
Proof. intros Hwf. unfold onEmpty; simpl. apply wf_waiter; auto. Qed.

Lemma wf_onIdle s : wf s → wf (onIdle s).2.
Proof. intros Hwf. unfold onIdle; simpl. apply wf_waiter; auto. Qed.

Lemma wf_remove_call p s :
  wf s → wf (set_calls (remove_call p (calls s)) s).
Proof.
  intros [Hn Hd Ha Hw Haw Hso Hst Hwr].
  assert (Hsub : ids (set_calls (remove_call p (calls s)) s) `sublist_of` ids s).
  { unfold ids; simpl. apply sublist_app; [done |]. apply sublist_app; [| done].
    apply fmap_sublist, remove_call_sublist. }
  pose proof (remove_call_sublist p (calls s)) as Hrm.
  constructor; simpl; auto.
  - eapply sublist_NoDup; eauto.
  - intros q Hq. apply Ha. eapply elem_of_sublist; eauto.
  - intros c Hc. apply Haw. eapply elem_of_sublist; eauto.
  - intros c Hc. apply Hwr. eapply elem_of_sublist; eauto.
Qed.

Lemma wf_update_call p e s :
  wf s → wf (set_calls (update_call p (Rejected e) (calls s)) s).
Proof.
  intros Hwf. destruct (wf_disjoint s Hwf) as (_ & Hnd & _ & _).
  destruct Hwf as [Hn Hd Ha Hw Haw Hso Hst Hwr].
  constructor; simpl; auto.
  - unfold ids in *; simpl. by rewrite update_call_ids.
  - unfold ids in *; simpl. by rewrite update_call_ids.
  - intros c [[Hc _]|[_ Hc]]%update_call_elem Hawait; [auto | | done].
    unfold awaited in Hawait. by rewrite Hc in Hawait.
  - intros c [[Hc _]|[_ Hc]]%update_call_elem Hpos; [auto | | done].
    by rewrite Hc.
Qed.

Lemma wf_task_settles p o s : wf s → wf (task_settles p o s).
Proof.
  intros Hwf. unfold task_settles.
  destruct (lookup_call p (calls s)) as [c|] eqn:Hl; [| done].
  apply lookup_call_Some in Hl as [Hc Hp].
  destruct (wf_disjoint s Hwf) as (_ & Hnd & Htq & _).
  assert (Hres : wf (runTask_resume p o (set_calls (remove_call p (calls s)) s))).
  { apply wf_runTask_resume; simpl.
    - by apply wf_remove_call.
    - intros Hin. apply Htq in Hin as [Hin _]. apply Hin.
      rewrite <- Hp. by apply list_elem_of_fmap_2.
    - intros c' Hc' Heq. exfalso. apply (remove_call_gone p (calls s) Hnd).
      apply list_elem_of_fmap. eauto. }
  destruct (c_wrapper c) as [[| |]|]; try done; by apply wf_remove_call.
Qed.

Lemma wf_timer_fires p s : wf s → wf (timer_fires p s).
Proof.
  intros Hwf. unfold timer_fires.
  destruct (lookup_call p (calls s)) as [c|] eqn:Hl; [| done].
  apply lookup_call_Some in Hl as [Hc Hp].
  destruct (wf_disjoint s Hwf) as (_ & Hnd & Htq & _).
  destruct (c_wrapper c) as [[| |]|] eqn:Hw; try done.
  apply wf_runTask_resume; simpl.
  - by apply wf_update_call.
  - intros Hin. apply Htq in Hin as [Hin _]. apply Hin.
    rewrite <- Hp. by apply list_elem_of_fmap_2.
  - intros c' [[_ Hne]|[_ Hc']]%update_call_elem Heq; [done | | done].
    unfold awaited. by rewrite Hc'.
Qed.

Lemma wf_step op s : wf s → wf (step op s).
Proof.
  intros Hwf. destruct op; simpl.
  - by apply wf_add.
  - by apply (wf_same s).
  - by apply wf_start.
  - by apply wf_clear.
  - by apply wf_onEmpty.
  - by apply wf_onIdle.
  - by apply wf_task_settles.
  - by apply wf_timer_fires.
Qed.

Lemma reachable_wf o ops : wf (run ops (constructor o)).
Proof. apply run_invariant; [apply wf_step | apply wf_constructor]. Qed.

(** ** What emitting does to one promise *)

Lemma emit_promise_other ev arg s p :
  (∀ l, l ∈ listeners s → l.2 = p → l.1 ≠ ev) →
  promises (emit ev arg s) !! p = promises s !! p.
Proof.
  intros Hp. simpl. apply fire_other.
  intros (l & -> & [Hev Hl]%list_elem_of_filter)%list_elem_of_fmap.
  by apply (Hp l Hl).
Qed.

Lemma emit_listeners ev arg s l :
  l ∈ listeners (emit ev arg s) → l ∈ listeners s.
Proof. simpl. by intros [_ ?]%list_elem_of_filter. Qed.

(** ** A queue whose limit is zero or negative *)

Lemma processQueue_loop_full w s :
  below (runningTasks s) (concurrency s) = false → processQueue_loop w s = s.
Proof. intros H. destruct w; simpl; [done |]. by rewrite H, andb_false_r. Qed.

Lemma held_emit ev arg p s : held p s → held p (emit ev arg s).
Proof.
  intros [Hp Hl]. split.
  - rewrite emit_promise_other; [done |].
    intros l Hin <- _. apply Hl. by apply list_elem_of_fmap_2.
  - intros (l & -> & Hin%emit_listeners)%list_elem_of_fmap.
    apply Hl. by apply list_elem_of_fmap_2.
Qed.

Lemma held_new_promise p s :
  held p s → held p (set_promises (promises s ++ [Pending]) s).
Proof. intros [Hp Hl]. split; [by apply lookup_app_l_Some | done]. Qed.

Lemma held_waiter (b : bool) ev p s :
  held p s →
  let p' := length (promises s) in
  let s0 := set_promises (promises s ++ [Pending]) s in
  held p (if b then set_promises (settle p' (Fulfilled undefined) (promises s0)) s0
          else set_listeners (listeners s0 ++ [(ev, p')]) s0).
Proof.
  intros [Hp Hl] p' s0.
  assert (Hne : p' ≠ p).
  { apply lookup_lt_Some in Hp. subst p'. lia. }
  destruct b; split; simpl.
  - rewrite settle_other by done. by apply lookup_app_l_Some.
  - done.
  - by apply lookup_app_l_Some.
  - rewrite fmap_app. simpl. intros [Hin|Hin%list_elem_of_singleton]%elem_of_app;
      [by apply Hl | by apply Hne].
Qed.

Section NonPositiveLimit.
Variable n : Z.
Hypothesis limit_nonpositive : n ≤ 0.

(** With nothing running, such a queue is full: [processQueue] returns
    at its first test. *)
Lemma processQueue_starved s :
  concurrency s = Finite n → runningTasks s = 0 → processQueue s = s.
Proof.
  intros Hc Hr. apply processQueue_loop_full. rewrite Hc, Hr. simpl.
  apply Z.ltb_ge. lia.
Qed.

Lemma starved_step op s :
  concurrency s = Finite n → starved s → starved (step op s).
Proof.
  intros Hc (Hr & Hcs & Hst).
  destruct op; simpl; try done.
  - unfold add; simpl. case_match; [| done]. by rewrite processQueue_starved.
  - unfold start. case_match; [| done]. by rewrite processQueue_starved.
  - unfold onEmpty; simpl. by case_match.
  - unfold onIdle; simpl. by case_match.
  - unfold task_settles. by rewrite Hcs.
  - unfold timer_fires. by rewrite Hcs.
Qed.

Lemma held_step p op s :
  concurrency s = Finite n → starved s → held p s → held p (step op s).
Proof.
  intros Hc (Hr & Hcs & Hst) Hp.
  destruct op; simpl; try done.
  - unfold add; simpl.
    match goal with |- held p (if _ then processQueue ?x else ?x) =>
      assert (Hx : held p x) end.
    { apply (held_emit "add" None). destruct Hp as [Hp Hl].
      split; simpl; [by apply lookup_app_l_Some | done]. }
    case_match; [| done]. by rewrite processQueue_starved.
  - unfold start. case_match; [| done]. by rewrite processQueue_starved.
  - unfold onEmpty; simpl. by apply held_waiter.
  - unfold onIdle; simpl. by apply held_waiter.
  - unfold task_settles. by rewrite Hcs.
  - unfold timer_fires. by rewrite Hcs.
Qed.

(** Both are kept by every history. *)
Lemma starved_run ops s :
  concurrency s = Finite n → starved s →
  concurrency (run ops s) = Finite n ∧ starved (run ops s).
Proof.
  intros Hc Hs.
  apply (run_invariant (λ x, concurrency x = Finite n ∧ starved x)); [| done].
  intros op x [Hcx Hx]. split; [| by apply starved_step].
  destruct (step_config op x) as (-> & _). done.
Qed.

Lemma held_run p ops s :
  concurrency s = Finite n → starved s → held p s → held p (run ops s).
Proof.
  intros Hc Hs Hp.
  assert (H : concurrency (run ops s) = Finite n ∧ starved (run ops s) ∧
              held p (run ops s)).
  { apply (run_invariant
             (λ x, concurrency x = Finite n ∧ starved x ∧ held p x));
      [| done].
    intros op x (Hcx & Hx & Hh). split; [| split].
    - destruct (step_config op x) as (-> & _). done.
    - by apply starved_step.
    - by apply held_step. }
  apply H.
Qed.
End NonPositiveLimit.

(** ** Nothing is reported where nothing runs *)

Lemma settle_fulfilled_rejected p v h q e :
  settle p (Fulfilled v) h !! q = Some (Rejected e) →
  h !! q = Some (Rejected e).
Proof.
  destruct (decide (p = q)) as [->|Hne]; [| by rewrite settle_other].
  unfold settle. rewrite list_lookup_alter_eq.
  destruct (h !! q) as [[]|]; simpl; congruence.
Qed.

Lemma fire_rejected (v : Value) hit h q e :
  foldl (λ h (l : string * nat), settle l.2 (Fulfilled v) h) h hit !! q
  = Some (Rejected e) →
  h !! q = Some (Rejected e).
Proof.
  revert h. induction hit as [|l hit IH]; intros h; simpl; [done |].
  intros H%IH. by apply settle_fulfilled_rejected in H.
Qed.

Lemma unreported_emit ev arg s :
  ev ≠ "error"%string → unreported s → unreported (emit ev arg s).
Proof.
  intros Hev [Hp He]. split.
  - intros p e H. simpl in H. apply fire_rejected in H. by apply (Hp p e).
  - unfold count_event in *. simpl. rewrite filter_app, length_app, He.
    rewrite filter_cons, filter_nil. simpl. by rewrite decide_False.
Qed.

Lemma unreported_new_promise s :
  unreported s → unreported (set_promises (promises s ++ [Pending]) s).
Proof.
  intros [Hp He]. split; [| done]. intros p e. simpl.
  intros [H|[_ H]]%lookup_app_Some; [by apply (Hp p e) |].
  by destruct (p - length (promises s))%nat.
Qed.

Lemma unreported_waiter (b : bool) ev s :
  unreported s →
  let p' := length (promises s) in
  let s0 := set_promises (promises s ++ [Pending]) s in
  unreported (if b then set_promises (settle p' (Fulfilled undefined) (promises s0)) s0
              else set_listeners (listeners s0 ++ [(ev, p')]) s0).
Proof.
  intros Hs p' s0.
  destruct (unreported_new_promise s Hs) as [Hp He].
  destruct b; split; try done.
  intros p e H. simpl in H. apply settle_fulfilled_rejected in H.
  by apply (Hp p e).
Qed.

Section NothingReported.
Variable n : Z.
Hypothesis limit_nonpositive : n ≤ 0.

Lemma unreported_step op s :
  concurrency s = Finite n → starved s → unreported s →
  unreported (step op s).
Proof.
  intros Hc (Hr & Hcs & Hst) Hu.
  destruct op; simpl; try done.
  - unfold add; simpl.
    match goal with |- unreported (if _ then processQueue ?x else ?x) =>
      assert (Hx : unreported x) end.
    { apply (unreported_emit "add" None); [done |].
      by apply (unreported_new_promise s). }
    case_match; [| done]. by rewrite (processQueue_starved n).
  - unfold start. case_match; [| done]. by rewrite (processQueue_starved n).
  - unfold onEmpty; simpl. by apply unreported_waiter.
  - unfold onIdle; simpl. by apply unreported_waiter.
  - unfold task_settles. by rewrite Hcs.
  - unfold timer_fires. by rewrite Hcs.
Qed.

(** No history of such a queue reports a failure. *)
Lemma unreported_run ops s :
  concurrency s = Finite n → starved s → unreported s →
  concurrency (run ops s) = Finite n ∧ starved (run ops s) ∧
  unreported (run ops s).
Proof.
  intros Hc Hs Hu.
  apply (run_invariant
           (λ x, concurrency x = Finite n ∧ starved x ∧ unreported x));
    [| done].
  intros op x (Hcx & Hx & Hux). split; [| split].
  - destruct (step_config op x) as (-> & _). done.
  - by apply (starved_step n).
  - by apply unreported_step.
Qed.
End NothingReported.

Lemma add_length t o s :
  paused s = true ∨ below (runningTasks s) (concurrency s) = false →
  length (taskQueue (add t o s).2) = S (length (taskQueue s)).
Proof.
  intros Hstop. unfold add; simpl.
  match goal with |- context [if ?b then processQueue ?x else ?x] =>
    assert (Hx : (if b then processQueue x else x) = x) end.
  { case_match; [| done]. unfold processQueue. simpl.
    match goal with |- processQueue_loop ?w _ = _ => destruct w end; simpl;
      [done |].
    destruct Hstop as [->| ->]; simpl; [done | by rewrite andb_false_r]. }
  rewrite Hx. simpl. rewrite Array_sort_perm, length_app. simpl. lia.
Qed.

(** ** Promises nothing will settle *)

Lemma quiet_emit ev arg p s :
  ev ≠ "empty"%string → quiet p s → quiet p (emit ev arg s).
Proof.
  intros Hev (Hp & Htq & Hcs & Hl). repeat split; try done.
  - rewrite emit_promise_other; [done |].
    intros l Hin Heq Hname. apply Hev. rewrite <- Hname. by apply Hl.
  - intros l Hin%emit_listeners. by apply Hl.
Qed.

Lemma quiet_loop p w s :
  quiet p s → p ∉ promise <$> w → quiet p (processQueue_loop w s).
Proof.
  revert s. induction w as [|e w IH]; intros s Hq Hw; simpl; [done |].
  case_match; [| done].
  rewrite fmap_cons in Hw. apply not_elem_of_cons in Hw as [Hne Hw].
  apply IH; [| done].
  destruct (quiet_emit "active" None p
              (set_runningTasks (runningTasks s + 1) (set_taskQueue w s)))
    as (Hp & _ & Hcs & Hl); [done | |].
  { destruct Hq as (? & ? & ? & ?). by repeat split. }
  unfold runTask. repeat split; try done.
  change (p ∉ c_promise <$>
            (calls s ++
               [{| c_promise := promise e; c_task := task e;
                   c_wrapper := if 0 <? timeout s then Some withTimeout
                                else None |}])).
  rewrite fmap_app. simpl. intros [Hin|Hin%list_elem_of_singleton]%elem_of_app.
  - by destruct Hq as (_ & _ & Hc & _).
  - done.
Qed.

Lemma quiet_processQueue p s : quiet p s → quiet p (processQueue s).
Proof. intros Hq. apply quiet_loop; [done |]. by destruct Hq as (_ & ? & _). Qed.

Lemma quiet_runTask_resume p q o s :
  q ≠ p → quiet p s → quiet p (runTask_resume q o s).
Proof.
  intros Hne Hq. unfold runTask_resume.
  set (s1 := match o with Resolves _ => _ | Rejects _ => _ end).
  assert (H1 : quiet p s1).
  { destruct Hq as (Hp & Htq & Hcs & Hl).
    subst s1. destruct o; (apply quiet_emit; [done |]);
      repeat split; simpl; try done; by rewrite settle_other. }
  set (s2 := set_runningTasks (runningTasks s1 - 1) s1).
  assert (H2 : quiet p s2) by exact H1.
  set (s3 := if paused s2 then s2 else processQueue s2).
  assert (H3 : quiet p s3).
  { subst s3. destruct (paused s2); [done |]. by apply quiet_processQueue. }
  apply quiet_emit; [done |].
  destruct (bool_decide (taskQueue s3 = []) && (runningTasks s3 =? 0));
    [by apply quiet_emit | done].
Qed.

Lemma quiet_waiter (b : bool) ev p s :
  quiet p s → ev = "empty"%string ∨ ev = "idle"%string →
  let p' := length (promises s) in
  let s0 := set_promises (promises s ++ [Pending]) s in
  quiet p (if b then set_promises (settle p' (Fulfilled undefined) (promises s0)) s0
           else set_listeners (listeners s0 ++ [(ev, p')]) s0).
Proof.
  intros (Hp & Htq & Hcs & Hl) Hev p' s0.
  assert (Hne : p' ≠ p).
  { apply lookup_lt_Some in Hp. subst p'. lia. }
  destruct b; repeat split; simpl; try done.
  - rewrite settle_other by done. by apply lookup_app_l_Some.
  - by apply lookup_app_l_Some.
  - intros l [Hin|Hin%list_elem_of_singleton]%elem_of_app Heq; [by apply Hl |].
    subst l. simpl in Heq. done.
Qed.

Lemma quiet_step p op s : quiet p s → quiet p (step op s).
Proof.
  intros Hq. destruct op; simpl.
  - unfold add; simpl.
    match goal with |- quiet p (if _ then processQueue ?x else ?x) =>
      assert (Hx : quiet p x) end.
    { apply quiet_emit; [done |]. destruct Hq as (Hp & Htq & Hcs & Hl).
      repeat split; simpl; try done.
      - by apply lookup_app_l_Some.
      - rewrite Array_sort_perm, fmap_app. simpl.
        intros [Hin|Hin%list_elem_of_singleton]%elem_of_app; [done |].
        apply lookup_lt_Some in Hp. lia. }
    case_match; [by apply quiet_processQueue | done].
  - exact Hq.
  - unfold start. case_match; [| done]. by apply quiet_processQueue.
  - destruct Hq as (Hp & Htq & Hcs & Hl). repeat split; simpl; try done.
    apply not_elem_of_nil.
  - unfold onEmpty; simpl. apply quiet_waiter; auto.
  - unfold onIdle; simpl. apply quiet_waiter; auto.
  - unfold task_settles.
    destruct (lookup_call p0 (calls s)) as [c|] eqn:Hlk; [| done].
    apply lookup_call_Some in Hlk as [Hc Heq].
    assert (Hne : p0 ≠ p).
    { intros ->. destruct Hq as (_ & _ & Hcs & _). apply Hcs.
      rewrite <- Heq. by apply list_elem_of_fmap_2. }
    assert (Hrm : quiet p (set_calls (remove_call p0 (calls s)) s)).
    { destruct Hq as (Hp & Htq & Hcs & Hl). repeat split; simpl; try done.
      intros Hin. apply Hcs. eapply elem_of_sublist; [exact Hin |].
      apply fmap_sublist, remove_call_sublist. }
    destruct (c_wrapper c) as [[| |]|]; try done;
      by apply quiet_runTask_resume.
  - unfold timer_fires.
    destruct (lookup_call p0 (calls s)) as [c|] eqn:Hlk; [| done].
    apply lookup_call_Some in Hlk as [Hc Heq].
    destruct (c_wrapper c) as [[| |]|]; try done.
    apply quiet_runTask_resume.
    + intros ->. destruct Hq as (_ & _ & Hcs & _). apply Hcs.
      rewrite <- Heq. by apply list_elem_of_fmap_2.
    + destruct Hq as (Hp & Htq & Hcs & Hl). repeat split; simpl; try done.
      by rewrite update_call_ids.
Qed.

Lemma quiet_run p ops s : quiet p s → quiet p (run ops s).
Proof. apply run_invariant. intros op x. apply quiet_step. Qed.

(** ** Settled promises stay as they are *)

Lemma settled_emit ev arg s q x :
  promises s !! q = Some x → x ≠ Pending →
  promises (emit ev arg s) !! q = Some x.
Proof. intros Hq Hx. simpl. by apply fire_settled. Qed.

Lemma settled_loop w s q x :
  promises s !! q = Some x → x ≠ Pending →
  promises (processQueue_loop w s) !! q = Some x.
Proof.
  revert s. induction w as [|e w IH]; intros s Hq Hx; simpl; [done |].
  case_match; [| done]. apply IH; [| done].
  unfold runTask.
  by apply (settled_emit "active" None
              (set_runningTasks (runningTasks s + 1) (set_taskQueue w s))).
Qed.

Lemma runTask_resume_promises p o s q x :
  settle p (outcome_state o) (promises s) !! q = Some x → x ≠ Pending →
  promises (runTask_resume p o s) !! q = Some x.
Proof.
  intros Hq Hx. unfold runTask_resume.
  set (s1 := match o with Resolves _ => _ | Rejects _ => _ end).
  assert (H1 : promises s1 !! q = Some x).
  { subst s1. destruct o; by apply settled_emit. }
  set (s2 := set_runningTasks (runningTasks s1 - 1) s1).
  set (s3 := if paused s2 then s2 else processQueue s2).
  assert (H3 : promises s3 !! q = Some x).
  { subst s3. destruct (paused s2); [done |]. by apply settled_loop. }
  apply settled_emit; [| done].
  destruct (bool_decide (taskQueue s3 = []) && (runningTasks s3 =? 0));
    [by apply settled_emit | done].
Qed.

Lemma runTask_resume_settles p o s :
  promises s !! p = Some Pending →
  promises (runTask_resume p o s) !! p = Some (outcome_state o).
Proof.
  intros Hp. apply runTask_resume_promises.
  - by apply settle_pending.
  - by destruct o.
Qed.

Lemma settled_runTask_resume p o s q x :
  promises s !! q = Some x → x ≠ Pending →
  promises (runTask_resume p o s) !! q = Some x.
Proof.
  intros Hq Hx. apply runTask_resume_promises; [| done].
  by apply settle_settled.
Qed.

Lemma settled_waiter (b : bool) ev s q x :
  promises s !! q = Some x → x ≠ Pending →
  let p' := length (promises s) in
  let s0 := set_promises (promises s ++ [Pending]) s in
  promises
    (if b then set_promises (settle p' (Fulfilled undefined) (promises s0)) s0
     else set_listeners (listeners s0 ++ [(ev, p')]) s0) !! q = Some x.
Proof.
  intros Hq Hx p' s0. destruct b; simpl.
  - apply settle_settled; [| done]. by apply lookup_app_l_Some.
  - by apply lookup_app_l_Some.
Qed.

Lemma settled_step op s q x :
  promises s !! q = Some x → x ≠ Pending →
  promises (step op s) !! q = Some x.
Proof.
  intros Hq Hx. destruct op; simpl; try done.
  - unfold add; simpl.
    match goal with |- promises (if _ then processQueue ?y else ?y) !! _ = _ =>
      assert (Hy : promises y !! q = Some x) end.
    { apply settled_emit; [| done]. simpl. by apply lookup_app_l_Some. }
    case_match; [by apply settled_loop | done].
  - unfold start. case_match; [| done]. by apply settled_loop.
  - unfold onEmpty; simpl. by apply settled_waiter.
  - unfold onIdle; simpl. by apply settled_waiter.
  - unfold task_settles. repeat case_match; try done;
      by apply settled_runTask_resume.
  - unfold timer_fires. repeat case_match; try done.
    by apply settled_runTask_resume.
Qed.

Lemma settled_run ops s q x :
  promises s !! q = Some x → x ≠ Pending →
  promises (run ops s) !! q = Some x.
Proof.
  intros Hq Hx.
  apply (run_invariant (λ s, promises s !! q = Some x)); [| done].
  intros op s' H. by apply settled_step.
Qed.

(** ** The calls after a dispatch *)

Lemma loop_calls w s : ∃ extra, calls (processQueue_loop w s) = calls s ++ extra.
Proof.
  revert s. induction w as [|e w IH]; intros s; simpl.
  - exists []. by rewrite app_nil_r.
  - case_match; [| exists []; by rewrite app_nil_r].
    destruct (IH (runTask e (set_taskQueue w s))) as [extra ->].
    unfold runTask; simpl. eexists. by rewrite <- app_assoc.
Qed.

Lemma runTask_resume_calls p o s :
  ∃ extra, calls (runTask_resume p o s) = calls s ++ extra.
Proof.
  unfold runTask_resume.
  set (s1 := match o with Resolves _ => _ | Rejects _ => _ end).
  assert (H1 : calls s1 = calls s) by (subst s1; by destruct o).
  set (s2 := set_runningTasks (runningTasks s1 - 1) s1).
  set (s3 := if paused s2 then s2 else processQueue s2).
  assert (H3 : ∃ extra, calls s3 = calls s ++ extra).
  { subst s3. destruct (paused s2).
    - exists []. by rewrite app_nil_r.
    - destruct (loop_calls (taskQueue s2) s2) as [extra He].
      exists extra. unfold processQueue. rewrite He. simpl. by rewrite H1. }
  destruct H3 as [extra He]. exists extra. rewrite <- He.
  by destruct (bool_decide (taskQueue s3 = []) && (runningTasks s3 =? 0)).
Qed.

Lemma lookup_call_app p cs extra c :
  lookup_call p cs = Some c → lookup_call p (cs ++ extra) = Some c.
Proof.
  induction cs as [|c' cs IH]; simpl; [done |]. by case_match.
Qed.

Lemma lookup_call_update p w cs c :
  lookup_call p cs = Some c →
  lookup_call p (update_call p w cs)
  = Some {| c_promise := p; c_task := c_task c; c_wrapper := Some w |}.
Proof.
  induction cs as [|c' cs IH]; simpl; [done |].
  destruct (decide (c_promise c' = p)) as [Heq|Hne]; simpl.
  - intros [= ->]. by rewrite decide_True.
  - intros H. rewrite decide_False by done. by apply IH.
Qed.

(** ** After a dispatch nothing startable waits *)

Lemma processQueue_stops s :
  no_listener "active" s → paused s = false →
  taskQueue (processQueue s) = [] ∨
  below (runningTasks (processQueue s)) (concurrency (processQueue s)) = false.
Proof.
  intros Hq Hp. destruct (processQueue_batch s Hq) as (k & Hk & -> & Hstop & _).
  simpl. rewrite length_take_le by done.
  destruct Hstop as [?|[?|?]]; [congruence | by right | by left].
Qed.

Lemma no_listener_emit ev' ev arg s :
  no_listener ev' s → no_listener ev' (emit ev arg s).
Proof. intros Hq l Hin%emit_listeners. by apply Hq. Qed.

Lemma drained_runTask_resume p o s :
  no_listener "active" s → drained (runTask_resume p o s).
Proof.
  intros Hq. unfold runTask_resume.
  set (s1 := match o with Resolves _ => _ | Rejects _ => _ end).
  assert (H1 : no_listener "active" s1).
  { subst s1. destruct o; by apply no_listener_emit. }
  set (s2 := set_runningTasks (runningTasks s1 - 1) s1).
  set (s3 := if paused s2 then s2 else processQueue s2).
  assert (H3 : drained s3).
  { subst s3. destruct (paused s2) eqn:Hp.
    - intros _ Hp'. congruence.
    - intros _ _. by apply processQueue_stops. }
  destruct (bool_decide (taskQueue s3 = []) && (runningTasks s3 =? 0));
    exact H3.
Qed.

Lemma drained_step op s : wf s → drained s → drained (step op s).
Proof.
  intros Hwf Hd.
  assert (Hq : no_listener "active" s) by (by apply wf_no_listener).
  destruct op; simpl.
  - unfold add; simpl.
    destruct (autoStart s && negb (paused s)) eqn:Hc.
    + intros _ _. apply processQueue_stops.
      * by apply no_listener_emit.
      * simpl. apply andb_true_iff in Hc as [_ Hc]. by apply negb_true_iff.
    + intros Ha Hp. simpl in *. rewrite Ha, Hp in Hc. done.
  - intros _ Hp. done.
  - unfold start. destruct (paused s) eqn:Hp; [| done].
    intros _ _. by apply processQueue_stops.
  - intros _ _. by left.
  - unfold onEmpty; simpl. case_match; exact Hd.
  - unfold onIdle; simpl. case_match; exact Hd.
  - unfold task_settles. repeat case_match; try done;
      by apply drained_runTask_resume.
  - unfold timer_fires. repeat case_match; try done.
    by apply drained_runTask_resume.
Qed.

Lemma reachable_drained o ops : drained (run ops (constructor o)).
Proof.
  assert (H : wf (run ops (constructor o)) ∧ drained (run ops (constructor o))).
  { apply (run_invariant (λ s, wf s ∧ drained s)).
    - intros op s [Hwf Hd]. split; [by apply wf_step | by apply drained_step].
    - split; [apply wf_constructor |]. intros _ _. by left. }
  apply H.
Qed.

(** ** The order of starts *)

Lemma before_app_r {A} (a b : A) l k : before a b l → before a b (l ++ k).
Proof.
  intros (l1 & l2 & l3 & ->). exists l1, l2, (l3 ++ k). reassoc.
Qed.

Lemma before_app_l {A} (a b : A) l k : before a b k → before a b (l ++ k).
Proof.
  intros (l1 & l2 & l3 & ->). exists (l ++ l1), l2, l3. reassoc.
Qed.

Lemma before_app {A} (a b : A) l k : a ∈ l → b ∈ k → before a b (l ++ k).
Proof.
  intros (l1 & l2 & ->)%list_elem_of_split (k1 & k2 & ->)%list_elem_of_split.
  exists l1, (l2 ++ k1), k2. reassoc.
Qed.

Lemma before_lookup {A} (l : list A) i j a b :
  l !! i = Some a → l !! j = Some b → (i < j)%nat → before a b l.
Proof.
  intros Hi Hj Hlt.
  rewrite <- (take_drop_middle l i a Hi).
  apply before_app_l.
  assert (Hb : b ∈ drop (S i) l).
  { apply list_elem_of_lookup. exists (j - S i)%nat. rewrite lookup_drop.
    rewrite <- Hj. f_equal. lia. }
  apply list_elem_of_split in Hb as (k1 & k2 & ->).
  by exists [], k1, k2.
Qed.

Lemma NoDup_fmap_eq {A B} (f : A → B) (l : list A) x y :
  NoDup (f <$> l) → x ∈ l → y ∈ l → f x = f y → x = y.
Proof.
  induction l as [|z l IH]; [by intros _ []%elem_of_nil |].
  rewrite fmap_cons. intros [Hz Hnd]%NoDup_cons.
  intros [->|Hx]%elem_of_cons [->|Hy]%elem_of_cons Heq; try done.
  - exfalso. apply Hz. rewrite Heq. by apply list_elem_of_fmap_2.
  - exfalso. apply Hz. rewrite <- Heq. by apply list_elem_of_fmap_2.
  - by apply IH.
Qed.

Lemma own_subseteq x tq tq' n n' :
  tq' ⊆ tq → (n ≤ n')%nat → own x tq n → own x tq' n'.
Proof. intros Hsub Hn [Hlt Hown]. split; [lia |]. intros e He. apply Hown. auto. Qed.

Section StartOrder.
Variables a b : Entry.
Hypothesis smaller : priority a < priority b.

(** A dispatch: the first [k] waiting entries are started. *)
Lemma in_order_dispatch tq st n k :
  StronglySorted by_priority tq →
  in_order a b tq st n →
  in_order a b (drop k tq) (st ++ (promise <$> take k tq)) n.
Proof.
  intros Hs (Ha & Hb & Hcase).
  split; [eapply own_subseteq; [apply subseteq_drop | | exact Ha]; lia |].
  split; [eapply own_subseteq; [apply subseteq_drop | | exact Hb]; lia |].
  destruct Hcase as [[Hnb Hw]|Hbef]; [| right; by apply before_app_r].
  destruct (decide (promise b ∈ promise <$> take k tq)) as [Hin|Hnin].
  - right. apply list_elem_of_fmap in Hin as (e & Heq & He).
    assert (e = b) as ->.
    { apply Hb; [| done]. by apply (subseteq_take k tq). }
    pose proof He as Hbk. apply elem_of_take in Hbk as (j & Hj & Hjk).
    destruct Hw as [Hast|Hatq]; [by eapply list_elem_of_lookup_2 | |].
    + apply before_app; [done | by apply list_elem_of_fmap_2].
    + apply list_elem_of_lookup in Hatq as (i & Hi).
      pose proof (sorted_before tq i j a b Hs Hi Hj smaller) as Hij.
      apply before_app_l. apply (before_lookup _ i j).
      * rewrite list_lookup_fmap, lookup_take_lt by lia. by rewrite Hi.
      * rewrite list_lookup_fmap, lookup_take_lt by lia. by rewrite Hj.
      * done.
  - left. split.
    + intros [?|?]%elem_of_app; done.
    + intros Hbd. apply (subseteq_drop k tq) in Hbd.
      destruct (Hw Hbd) as [Hast|Hatq].
      * left. apply elem_of_app. by left.
      * rewrite <- (take_drop k tq) in Hatq.
        apply elem_of_app in Hatq as [Hat|Had]; [| by right].
        left. apply elem_of_app. right. by apply list_elem_of_fmap_2.
Qed.

(** [add]: an entry of the new promise joins the waiting array. *)
Lemma in_order_push e tq tq' st n :
  tq' ≡ₚ e :: tq → promise e = n →
  in_order a b tq st n → in_order a b tq' st (S n).
Proof.
  intros Hperm He (Ha & Hb & Hcase).
  assert (Hown : ∀ x, own x tq n → own x tq' (S n)).
  { intros x [Hlt Hx]. split; [lia |]. intros e'. rewrite Hperm.
    intros [->|Hin]%elem_of_cons Heq; [lia | by apply Hx]. }
  split; [by apply Hown |]. split; [by apply Hown |].
  destruct Hcase as [[Hnb Hw]|Hbef]; [left | by right].
  split; [done |]. rewrite Hperm.
  intros [->|Hin]%elem_of_cons; [destruct Hb; lia |].
  destruct (Hw Hin) as [?|?]; [by left |]. right. by right.
Qed.

Lemma in_order_clear tq st n : in_order a b tq st n → in_order a b [] st n.
Proof.
  intros (Ha & Hb & Hcase).
  split; [eapply own_subseteq; [| | exact Ha]; [by intros ? []%elem_of_nil | lia] |].
  split; [eapply own_subseteq; [| | exact Hb]; [by intros ? []%elem_of_nil | lia] |].
  destruct Hcase as [[Hnb Hw]|Hbef]; [left | by right].
  split; [done |]. by intros []%elem_of_nil.
Qed.

Lemma in_order_new_promise tq st n :
  in_order a b tq st n → in_order a b tq st (S n).
Proof.
  intros (Ha & Hb & Hcase).
  split; [eapply own_subseteq; [| | exact Ha]; [done | lia] |].
  split; [eapply own_subseteq; [| | exact Hb]; [done | lia] |].
  done.
Qed.

Lemma emit_length ev arg s :
  length (promises (emit ev arg s)) = length (promises s).
Proof. simpl. apply fire_length. Qed.

Lemma ordered_processQueue s :
  no_listener "active" s → StronglySorted by_priority (taskQueue s) →
  ordered a b s → ordered a b (processQueue s).
Proof.
  intros Hq Hs Ho.
  destruct (processQueue_batch s Hq) as (k & _ & -> & _).
  unfold ordered; simpl. by apply in_order_dispatch.
Qed.

Lemma ordered_runTask_resume p o s :
  no_listener "active" s → StronglySorted by_priority (taskQueue s) →
  ordered a b s → ordered a b (runTask_resume p o s).
Proof.
  intros Hq Hs Ho. unfold runTask_resume.
  set (s1 := match o with Resolves _ => _ | Rejects _ => _ end).
  assert (H1 : no_listener "active" s1 ∧ taskQueue s1 = taskQueue s ∧
               ordered a b s1).
  { subst s1. destruct o; (split; [by apply no_listener_emit |]);
      (split; [done |]); unfold ordered; rewrite emit_length; simpl;
      by rewrite settle_length. }
  destruct H1 as (Hq1 & Htq1 & Ho1).
  set (s2 := set_runningTasks (runningTasks s1 - 1) s1).
  set (s3 := if paused s2 then s2 else processQueue s2).
  assert (H3 : ordered a b s3).
  { subst s3. destruct (paused s2); [done |].
    apply ordered_processQueue; try done. simpl. by rewrite Htq1. }
  unfold ordered. rewrite emit_length.
  destruct (bool_decide (taskQueue s3 = []) && (runningTasks s3 =? 0));
    [rewrite emit_length |]; exact H3.
Qed.

Lemma ordered_waiter (b0 : bool) ev s :
  ordered a b s →
  let p' := length (promises s) in
  let s0 := set_promises (promises s ++ [Pending]) s in
  ordered a b
    (if b0 then set_promises (settle p' (Fulfilled undefined) (promises s0)) s0
     else set_listeners (listeners s0 ++ [(ev, p')]) s0).
Proof.
  intros Ho p' s0. unfold ordered.
  destruct b0; simpl; rewrite ?settle_length, length_app; simpl;
    rewrite Nat.add_1_r; by apply in_order_new_promise.
Qed.

Lemma ordered_step op s :
  wf s → ordered a b s → ordered a b (step op s).
Proof.
  intros Hwf Ho.
  assert (Hq : no_listener "active" s) by (by apply wf_no_listener).
  pose proof (wf_sorted s Hwf) as Hs.
  destruct op; simpl.
  - unfold add; simpl.
    match goal with |- ordered a b (if _ then processQueue ?x else ?x) =>
      assert (Hx : ordered a b x) end.
    { unfold ordered. rewrite emit_length. simpl.
      rewrite length_app. simpl. rewrite Nat.add_1_r.
      apply (in_order_push
               {| task := t; promise := length (promises s);
                  priority := default 0 o_priority |} (taskQueue s));
        [| reflexivity | exact Ho].
      rewrite Array_sort_perm. solve_Permutation. }
    case_match; [| done].
    apply ordered_processQueue; try done.
    + by apply no_listener_emit.
    + simpl. apply Array_sort_sorted.
  - exact Ho.
  - unfold start. case_match; [| done]. by apply ordered_processQueue.
  - by apply in_order_clear in Ho.
  - unfold onEmpty; simpl. by apply ordered_waiter.
  - unfold onIdle; simpl. by apply ordered_waiter.
  - unfold task_settles. repeat case_match; try done;
      by apply ordered_runTask_resume.
  - unfold timer_fires. repeat case_match; try done.
    by apply ordered_runTask_resume.
Qed.

Lemma ordered_run ops s :
  wf s → ordered a b s → wf (run ops s) ∧ ordered a b (run ops s).
Proof.
  intros Hwf Ho.
  apply (run_invariant (λ x, wf x ∧ ordered a b x)); [| done].
  intros op x [Hx1 Hx2]. split; [by apply wf_step | by apply ordered_step].
Qed.
End StartOrder.

(** ** Properties of the queue *)

(** C1, as stated, fails: a queue constructed with the limit -1 has
    [runningTasks] 0, which is above its limit. *)
Lemma running_above_negative_limit :
  ¬ (∀ o ops n,
       o_concurrency o = Some (Finite n) →
       runningTasks (run ops (constructor o)) ≤ n).
Proof.
  intros H.
  specialize (H {| o_concurrency := Some (Finite (-1)); o_timeout := None;
                   o_throwOnTimeout := None; o_autoStart := None |} [] (-1)
                eq_refl).
  simpl in H. lia.
Qed.

(** C1, amended: for every queue constructed with a finite limit [n] that is
    not negative, and every sequence of operations and settlements,
    [runningTasks] never exceeds [n]. *)
Theorem runningTasks_bounded o ops n :
  o_concurrency o = Some (Finite n) → 0 ≤ n →
  runningTasks (run ops (constructor o)) ≤ n.
Proof.
  intros Ho Hn. pose proof (reachable_within o ops) as Hw.
  destruct (run_config ops (constructor o)) as (Hc & _).
  unfold within in Hw. rewrite Hc in Hw. simpl in Hw. rewrite Ho in Hw.
  simpl in Hw. lia.
Qed.

Lemma runningTasks_bounded_witness :
  runningTasks (run usage_ops (constructor usage_options)) ≤ 2.
Proof.
  apply (runningTasks_bounded usage_options usage_ops 2); [reflexivity | lia].
Defined.

(** C7, as stated, fails: constructing a queue with the limit -1 does not
    throw. *)
Lemma negative_limit_accepted :
  ¬ (∀ o n, o_concurrency o = Some (Finite n) → n < 0 →
            ∃ e, new_TaskQueue (object o) = Throw e).
Proof.
  intros H.
  destruct (H {| o_concurrency := Some (Finite (-1)); o_timeout := None;
                 o_throwOnTimeout := None; o_autoStart := None |} (-1)
              eq_refl) as [e He]; [lia | discriminate He].
Qed.

(** C7, amended: a negative limit is reported neither at construction nor
    at dispatch: [new TaskQueue] with a limit [n < 0] returns a queue, which
    holds [n] as its limit; and in every history of that queue no task is
    started, no "error" is emitted and no promise is rejected. *)
Theorem negative_limit_never_reported o n ops :
  o_concurrency o = Some (Finite n) → n < 0 →
  ∃ q, new_TaskQueue (object o) = Normal q ∧
       concurrency q = Finite n ∧
       started (run ops q) = [] ∧
       count_event "error" (run ops q) = 0%nat ∧
       ∀ p e, promises (run ops q) !! p ≠ Some (Rejected e).
Proof.
  intros Ho Hn. exists (constructor o).
  assert (Hc0 : concurrency (constructor o) = Finite n)
    by (simpl; by rewrite Ho).
  assert (Hle : n ≤ 0) by lia.
  destruct (unreported_run n Hle ops (constructor o) Hc0)
    as (_ & (_ & _ & Hst) & Hp & He); [done | by split | done].
Qed.

Lemma negative_limit_never_reported_witness :
  let o := {| o_concurrency := Some (Finite (-1)); o_timeout := Some 50;
              o_throwOnTimeout := None; o_autoStart := None |} in
  let ops := [Add "first" None; Add "second" (Some 1); Start; OnIdle;
              TimerFires 0; TaskSettles 0 (Rejects (OtherError "failed"))] in
  ∃ q, new_TaskQueue (object o) = Normal q ∧
       concurrency q = Finite (-1) ∧
       started (run ops q) = [] ∧
       count_event "error" (run ops q) = 0%nat ∧
       ∀ p e, promises (run ops q) !! p ≠ Some (Rejected e).
Proof.
  intros o ops.
  apply (negative_limit_never_reported o (-1) ops); [reflexivity | lia].
Defined.

(** C9: [start()] on a queue that is not paused changes nothing: the state
    after the call is the state before it. *)
Theorem start_not_paused s : paused s = false → start s = s.
Proof. intros H. unfold start. by rewrite H. Qed.

Lemma start_not_paused_witness :
  start (constructor no_options) = constructor no_options.
Proof. apply (start_not_paused (constructor no_options)). reflexivity. Defined.

(** C10: in a queue constructed with a limit [n <= 0], whatever happened
    before, nothing runs and nothing has been started; [add] makes the
    waiting array one longer; and whatever happens next, still nothing
    runs, nothing has been started and the promise [add] returned is
    pending. *)
Theorem nonpositive_limit_starves o ops n t pr ops' :
  o_concurrency o = Some (Finite n) → n ≤ 0 →
  let s := run ops (constructor o) in
  let s' := run ops' (add t pr s).2 in
  runningTasks s = 0 ∧ started s = [] ∧ calls s = [] ∧
  length (taskQueue (add t pr s).2) = S (length (taskQueue s)) ∧
  runningTasks s' = 0 ∧ started s' = [] ∧ calls s' = [] ∧
  promises s' !! (add t pr s).1 = Some Pending.
Proof.
  intros Ho Hn s s'.
  assert (Hc0 : concurrency (constructor o) = Finite n) by (simpl; by rewrite Ho).
  destruct (starved_run n Hn ops (constructor o) Hc0) as [Hc Hs]; [done |].
  fold s in Hc, Hs.
  assert (Hfull : below (runningTasks s) (concurrency s) = false).
  { destruct Hs as (-> & _). rewrite Hc. simpl. apply Z.ltb_ge. lia. }
  destruct (starved_run n Hn [Add t pr] s Hc Hs) as [Hc1 Hs1].
  change (run [Add t pr] s) with (add t pr s).2 in Hc1, Hs1.
  assert (Hheld : held (add t pr s).1 (add t pr s).2).
  { pose proof (fresh_not_id s (reachable_wf o ops)) as Hfresh.
    unfold add; simpl.
    match goal with |- held _ (if _ then processQueue ?x else ?x) =>
      assert (Hx : held (length (promises s)) x) end.
    { apply (held_emit "add" None). split; simpl.
      - by rewrite lookup_app_r, Nat.sub_diag.
      - intros Hin. apply Hfresh. unfold ids. rewrite !elem_of_app. auto. }
    case_match; [| done].
    unfold processQueue. rewrite processQueue_loop_full; [done |]. simpl.
    exact Hfull. }
  destruct (starved_run n Hn ops' (add t pr s).2 Hc1 Hs1)
    as (_ & Hr' & Hcs' & Hst').
  destruct (held_run n Hn (add t pr s).1 ops' (add t pr s).2 Hc1 Hs1 Hheld)
    as [Hp' _].
  destruct Hs as (Hr & Hcs & Hst).
  repeat split; try done.
  apply add_length. by right.
Qed.

Lemma nonpositive_limit_starves_witness :
  let o := {| o_concurrency := Some (Finite 0); o_timeout := None;
              o_throwOnTimeout := None; o_autoStart := None |} in
  let s := run [Pause; Start] (constructor o) in
  let s' := run [Start; Pause; Start] (add "task" None s).2 in
  runningTasks s = 0 ∧ started s = [] ∧ calls s = [] ∧
  length (taskQueue (add "task" None s).2) = S (length (taskQueue s)) ∧
  runningTasks s' = 0 ∧ started s' = [] ∧ calls s' = [] ∧
  promises s' !! (add "task" None s).1 = Some Pending.
Proof.
  apply (nonpositive_limit_starves
           {| o_concurrency := Some (Finite 0); o_timeout := None;
              o_throwOnTimeout := None; o_autoStart := None |}
           [Pause; Start] 0 "task" None [Start; Pause; Start]);
    [reflexivity | lia].
Defined.

(** C8: [clear()] empties the waiting array and changes nothing else
    (counter, pause flag, calls in flight, promises); the promises of the
    entries it drops were pending and stay pending whatever happens next. *)
Theorem clear_drops_waiting o ops :
  let s := run ops (constructor o) in
  taskQueue (clear s) = [] ∧
  runningTasks (clear s) = runningTasks s ∧
  paused (clear s) = paused s ∧
  calls (clear s) = calls s ∧
  promises (clear s) = promises s ∧
  started (clear s) = started s ∧
  ∀ e, e ∈ taskQueue s →
       promises s !! promise e = Some Pending ∧
       ∀ ops', promises (run ops' (clear s)) !! promise e = Some Pending.
Proof.
  intros s. repeat split; try done.
  - by apply (wf_waiting s (reachable_wf o ops)).
  - intros ops'.
    pose proof (reachable_wf o ops) as Hwf. fold s in Hwf.
    destruct (wf_disjoint s Hwf) as (_ & _ & Htq & _).
    destruct (Htq (promise e)) as [Hcs Hl]; [by apply list_elem_of_fmap_2 |].
    apply (quiet_run (promise e) ops' (clear s)).
    repeat split; simpl.
    + by apply (wf_waiting s Hwf).
    + apply not_elem_of_nil.
    + done.
    + intros l Hin Heq. exfalso. apply Hl. rewrite <- Heq.
      by apply list_elem_of_fmap_2.
Qed.

Lemma clear_drops_waiting_witness :
  let s := run [Add "a" None; Add "b" None; Add "c" None]
               (constructor {| o_concurrency := None; o_timeout := None;
                               o_throwOnTimeout := None;
                               o_autoStart := Some false |}) in
  taskQueue (clear s) = [] ∧
  promises (run [Start; OnIdle] (clear s)) !! 1%nat = Some Pending.
Proof.
  pose proof (clear_drops_waiting
                {| o_concurrency := None; o_timeout := None;
                   o_throwOnTimeout := None; o_autoStart := Some false |}
                [Add "a" None; Add "b" None; Add "c" None])
    as (H1 & _ & _ & _ & _ & _ & H2).
  split; [exact H1 |].
  refine (proj2 (H2 {| task := "b"; promise := 1; priority := 0 |} _)
                [Start; OnIdle]).
  vm_compute. apply list_elem_of_further, list_elem_of_here.
Defined.

(** C3: the promise [onEmpty()] returns is resolved at once when nothing
    waits (as the claim says).  When something waits it is left to a
    listener of "empty", an event the queue never emits: it stays pending
    whatever happens next, also once the waiting array is empty (against the
    claim). *)
Theorem onEmpty_only_at_once o ops :
  let s := run ops (constructor o) in
  let p := (onEmpty s).1 in
  (taskQueue s = [] →
   promises (onEmpty s).2 !! p = Some (Fulfilled undefined)) ∧
  (taskQueue s ≠ [] →
   ∀ ops', promises (run ops' (onEmpty s).2) !! p = Some Pending).
Proof.
  intros s p. pose proof (reachable_wf o ops) as Hwf. fold s in Hwf.
  pose proof (fresh_not_id s Hwf) as Hfresh.
  split; intros Htq.
  - unfold onEmpty; simpl. rewrite bool_decide_true by done. simpl.
    apply settle_pending. by rewrite lookup_app_r, Nat.sub_diag.
  - intros ops'. apply (quiet_run p ops'). subst p.
    unfold onEmpty; simpl. rewrite bool_decide_false by done.
    unfold ids in Hfresh. rewrite !elem_of_app in Hfresh.
    repeat split; simpl.
    + by rewrite lookup_app_r, Nat.sub_diag.
    + tauto.
    + tauto.
    + intros l [Hin|Hin%list_elem_of_singleton]%elem_of_app Heq.
      * exfalso. apply Hfresh. right; right. rewrite <- Heq.
        by apply list_elem_of_fmap_2.
      * by subst l.
Qed.

(** The waiting array empties, the task settles, the queue is idle: the
    promise of [onEmpty] is still pending. *)
Lemma onEmpty_pending_after_drain :
  let s := run [Add "task" None]
               (constructor {| o_concurrency := None; o_timeout := None;
                               o_throwOnTimeout := None;
                               o_autoStart := Some false |}) in
  let s' := run [Start; TaskSettles 0 (Resolves (str "done"))] (onEmpty s).2 in
  taskQueue s ≠ [] ∧ taskQueue s' = [] ∧ runningTasks s' = 0 ∧
  promises s' !! (onEmpty s).1 = Some Pending.
Proof.
  assert (Hne : taskQueue
                  (run [Add "task" None]
                     (constructor {| o_concurrency := None; o_timeout := None;
                                     o_throwOnTimeout := None;
                                     o_autoStart := Some false |})) ≠ [])
    by (vm_compute; discriminate).
  intros s s'. split; [exact Hne |]. split; [reflexivity |].
  split; [reflexivity |].
  exact (proj2 (onEmpty_only_at_once
                  {| o_concurrency := None; o_timeout := None;
                     o_throwOnTimeout := None; o_autoStart := Some false |}
                  [Add "task" None]) Hne
               [Start; TaskSettles 0 (Resolves (str "done"))]).
Defined.

(** C4: in a queue with a timeout, when the timer of a started task fires
    before the task has settled, the promise [add] returned is rejected
    with a [TimeoutError], whose message is "Operation timed out", and
    stays so whatever happens next; the call of
    the task is still there (nothing cancels it), and when it settles later
    its result is dropped: the call leaves and nothing else changes. *)
Theorem timeout_rejects o ops c res ops' :
  let s := run ops (constructor o) in
  let p := c_promise c in
  let s1 := step (TimerFires p) s in
  let s2 := step (TaskSettles p res) s1 in
  0 < timeout s → c ∈ calls s → awaited c = true →
  promises s !! p = Some Pending ∧
  promises s1 !! p = Some (Rejected (TimeoutError "Operation timed out")) ∧
  (∃ c', lookup_call p (calls s1) = Some c' ∧ c_task c' = c_task c) ∧
  promises (run ops' s1) !! p = Some (Rejected (TimeoutError "Operation timed out")) ∧
  s2 = set_calls (remove_call p (calls s1)) s1 ∧
  promises s2 !! p = Some (Rejected (TimeoutError "Operation timed out")).
Proof.
  intros s p s1 s2 Htmo Hc Hawait.
  change (TimeoutError "Operation timed out") with timeout_error.
  pose proof (reachable_wf o ops) as Hwf. fold s in Hwf.
  destruct (wf_disjoint s Hwf) as (_ & Hnd & _ & _).
  pose proof (wf_awaited s Hwf c Hc Hawait) as Hpend.
  pose proof (wf_wrapper s Hwf c Hc Htmo) as Hwr.
  pose proof (lookup_call_unique p (calls s) c Hnd Hc eq_refl) as Hlk.
  assert (Hw : c_wrapper c = Some Pending).
  { unfold awaited in Hawait. by destruct (c_wrapper c) as [[]|]. }
  assert (Hs1 : s1 = runTask_resume p (Rejects timeout_error)
                       (set_calls (update_call p (Rejected timeout_error) (calls s)) s)).
  { subst s1. simpl. unfold timer_fires. by rewrite Hlk, Hw. }
  assert (Hrej : promises s1 !! p = Some (Rejected timeout_error)).
  { rewrite Hs1. by apply (runTask_resume_settles p (Rejects timeout_error)). }
  assert (Hlk1 : lookup_call p (calls s1)
                 = Some {| c_promise := p; c_task := c_task c;
                           c_wrapper := Some (Rejected timeout_error) |}).
  { rewrite Hs1.
    destruct (runTask_resume_calls p (Rejects timeout_error)
                (set_calls (update_call p (Rejected timeout_error) (calls s)) s))
      as [extra ->].
    apply lookup_call_app. simpl. by apply lookup_call_update. }
  assert (Hs2 : s2 = set_calls (remove_call p (calls s1)) s1).
  { subst s2. simpl. unfold task_settles. by rewrite Hlk1. }
  split; [done |]. split; [done |]. split; [eauto |].
  split; [by apply settled_run |]. split; [done |].
  rewrite Hs2. simpl. done.
Qed.

Lemma timeout_rejects_witness :
  let s := run [Add "slow" None]
               (constructor {| o_concurrency := None; o_timeout := Some 50;
                               o_throwOnTimeout := None;
                               o_autoStart := None |}) in
  promises (step (TimerFires 0) s) !! 0%nat
  = Some (Rejected (TimeoutError "Operation timed out")) ∧
  promises (step (TaskSettles 0 (Resolves (str "late")))
              (step (TimerFires 0) s)) !! 0%nat
  = Some (Rejected (TimeoutError "Operation timed out")).
Proof.
  pose proof (timeout_rejects
                {| o_concurrency := None; o_timeout := Some 50;
                   o_throwOnTimeout := None; o_autoStart := None |}
                [Add "slow" None]
                {| c_promise := 0; c_task := "slow"; c_wrapper := Some Pending |}
                (Resolves (str "late")) []) as H.
  destruct H as (_ & H1 & _ & _ & _ & H2).
  - reflexivity.
  - vm_compute. apply list_elem_of_here.
  - reflexivity.
  - split; [exact H1 | exact H2].
Defined.

(** C5, as stated, fails: with a timeout, a task that resolves with V after
    its timer fired leaves the promise of [add] rejected with the
    [TimeoutError]. *)
Lemma late_result_dropped :
  ¬ (∀ o ops p v,
       let s := run ops (constructor o) in
       p ∈ c_promise <$> calls s →
       promises (step (TaskSettles p (Resolves v)) s) !! p
       = Some (Fulfilled v)).
Proof.
  intros H.
  specialize (H {| o_concurrency := None; o_timeout := Some 50;
                   o_throwOnTimeout := None; o_autoStart := None |}
                [Add "slow" None; TimerFires 0] 0%nat (str "V")).
  simpl in H.
  assert (Hin : 0%nat ∈ c_promise <$>
            calls (run [Add "slow" None; TimerFires 0]
                     (constructor {| o_concurrency := None;
                                     o_timeout := Some 50;
                                     o_throwOnTimeout := None;
                                     o_autoStart := None |})))
    by (vm_compute; apply list_elem_of_here).
  specialize (H Hin). vm_compute in H. discriminate H.
Qed.

(** C5, amended: when a started task settles while [runTask] still awaits
    it (no timeout, or the timer has not fired), the promise [add] returned
    settles the same way, with the very value or error, and stays so
    whatever happens next. *)
Theorem settlement_round_trip o ops c res ops' :
  let s := run ops (constructor o) in
  let p := c_promise c in
  c ∈ calls s → awaited c = true →
  promises s !! p = Some Pending ∧
  promises (step (TaskSettles p res) s) !! p = Some (outcome_state res) ∧
  promises (run ops' (step (TaskSettles p res) s)) !! p
  = Some (outcome_state res).
Proof.
  intros s p Hc Hawait.
  pose proof (reachable_wf o ops) as Hwf. fold s in Hwf.
  destruct (wf_disjoint s Hwf) as (_ & Hnd & _ & _).
  pose proof (wf_awaited s Hwf c Hc Hawait) as Hpend.
  pose proof (lookup_call_unique p (calls s) c Hnd Hc eq_refl) as Hlk.
  assert (Hs1 : step (TaskSettles p res) s
                = runTask_resume p res (set_calls (remove_call p (calls s)) s)).
  { simpl. unfold task_settles. rewrite Hlk.
    unfold awaited in Hawait. by destruct (c_wrapper c) as [[]|]. }
  assert (H1 : promises (step (TaskSettles p res) s) !! p
               = Some (outcome_state res)).
  { rewrite Hs1. by apply runTask_resume_settles. }
  split; [done |]. split; [done |].
  apply settled_run; [done |]. by destruct res.
Qed.

Lemma settlement_round_trip_witness :
  let s := run [Add "task" None] (constructor no_options) in
  promises (step (TaskSettles 0 (Resolves (str "V"))) s) !! 0%nat
  = Some (Fulfilled (str "V")).
Proof.
  pose proof (settlement_round_trip no_options [Add "task" None]
                {| c_promise := 0; c_task := "task"; c_wrapper := None |}
                (Resolves (str "V")) []) as H.
  destruct H as (_ & H & _).
  - vm_compute. apply list_elem_of_here.
  - reflexivity.
  - exact H.
Defined.

(** C6, as stated, fails: on a queue constructed with [autoStart] false,
    after [start()] the queue is not paused and has room, yet [add] does
    not start the task. *)
Lemma add_after_start_waits :
  ¬ (∀ o ops t pr,
       let s := run ops (constructor o) in
       paused s = false → below (runningTasks s) (concurrency s) = true →
       (add t pr s).1 ∈ started (add t pr s).2).
Proof.
  intros H.
  specialize (H {| o_concurrency := None; o_timeout := None;
                   o_throwOnTimeout := None; o_autoStart := Some false |}
                [Start] "task"%string None eq_refl eq_refl).
  vm_compute in H. by apply elem_of_nil in H.
Qed.

(** C6, amended: [add] dispatches when the queue was constructed with
    [autoStart] true and is not paused; in such a queue with room nothing
    waits, and [add] starts the very task it was given: the waiting array
    is empty again, the task is the last one started and its call is in
    flight. *)
Theorem add_starts_task o ops t pr :
  let s := run ops (constructor o) in
  let p := (add t pr s).1 in
  let s' := (add t pr s).2 in
  autoStart s = true → paused s = false →
  below (runningTasks s) (concurrency s) = true →
  taskQueue s = [] ∧ taskQueue s' = [] ∧
  started s' = started s ++ [p] ∧
  runningTasks s' = runningTasks s + 1 ∧
  calls s' =
    calls s ++ [mk_call (timeout s)
                  {| task := t; promise := p; priority := default 0 pr |}] ∧
  promises s' !! p = Some Pending.
Proof.
  intros s p s' Ha Hp Hb.
  pose proof (reachable_wf o ops) as Hwf. fold s in Hwf.
  assert (Htq : taskQueue s = []).
  { destruct (reachable_drained o ops Ha Hp) as [H|H]; [done |].
    fold s in H. congruence. }
  assert (Hq : ∀ ev, ev ≠ "empty"%string → ev ≠ "idle"%string →
                     no_listener ev s).
  { intros ev H1 H2. by apply wf_no_listener. }
  subst p s'. unfold add. simpl. rewrite Htq. simpl.
  rewrite (emit_quiet "add") by (by apply Hq). simpl.
  rewrite Ha, Hp. simpl. unfold processQueue. simpl. rewrite Hp, Hb. simpl.
  rewrite (filter_none (λ l : string * nat, l.1 = "active"%string))
    by (by apply Hq).
  simpl. repeat split; try done.
  by rewrite lookup_app_r, Nat.sub_diag.
Qed.

Lemma add_starts_task_witness :
  let s := run [Add "first" None; TaskSettles 0 (Resolves (str "r"))]
               (constructor no_options) in
  started (add "second" (Some 3) s).2 = started s ++ [(add "second" (Some 3) s).1].
Proof.
  pose proof (add_starts_task no_options
                [Add "first" None; TaskSettles 0 (Resolves (str "r"))]
                "second" (Some 3)) as H.
  destruct H as (_ & _ & H & _); [reflexivity | reflexivity | reflexivity |].
  exact H.
Defined.

(** C2: in every reachable state the waiting array is sorted by priority
    value, and a dispatch starts a prefix of it, so that every entry it
    starts has a priority value no greater than every entry it leaves
    waiting.  For two waiting entries [a] and [b] with the priority value
    of [a] strictly smaller, whatever happens next: if [b] has been started
    then [a] was started before it. *)
Theorem priority_order o ops a b ops' :
  let s := run ops (constructor o) in
  let s' := run ops' s in
  a ∈ taskQueue s → b ∈ taskQueue s → priority a < priority b →
  StronglySorted by_priority (taskQueue s) ∧
  (∃ k : nat,
     processQueue s = batch (take k (taskQueue s)) (drop k (taskQueue s)) s ∧
     ∀ x y, x ∈ take k (taskQueue s) → y ∈ drop k (taskQueue s) →
            priority x ≤ priority y) ∧
  (promise b ∈ started s' → before (promise a) (promise b) (started s')).
Proof.
  intros s s' Ha Hb Hlt.
  pose proof (reachable_wf o ops) as Hwf. fold s in Hwf.
  pose proof (wf_sorted s Hwf) as Hs.
  split; [done |]. split.
  - destruct (processQueue_batch s) as (k & _ & Heq & _);
      [by apply wf_no_listener |].
    exists k. split; [done |]. intros x y Hx Hy.
    rewrite <- (take_drop k (taskQueue s)) in Hs.
    by apply (StronglySorted_app_1_elem_of by_priority _ _ x y Hs).
  - destruct (wf_disjoint s Hwf) as (Hnd & _ & _ & _).
    assert (Hown : ∀ x, x ∈ taskQueue s →
                        own x (taskQueue s) (length (promises s))).
    { intros x Hx. split.
      - apply (wf_alloc s Hwf). unfold ids. apply elem_of_app. left.
        by apply list_elem_of_fmap_2.
      - intros e He Heq. by apply (NoDup_fmap_eq promise (taskQueue s)). }
    assert (H0 : ordered a b s).
    { split; [by apply Hown |]. split; [by apply Hown |]. left. split.
      - intros Hst. apply (wf_started s Hwf) in Hst as [_ Hst].
        apply Hst. by apply list_elem_of_fmap_2.
      - intros _. by right. }
    destruct (ordered_run a b Hlt ops' s Hwf H0)
      as (_ & _ & _ & [[Hnb _]|Hbef]); [done | by intros _].
Qed.

Lemma priority_order_witness :
  let s := run [Add "Task 1" (Some 2); Add "Task 2" (Some 1);
                Add "Task 3" (Some 2); Add "Task 4" (Some 1)]
               (constructor usage_options) in
  let s' := run [Start; TaskSettles 1 (Resolves (str "Task 2 result"));
                 TaskSettles 3 (Resolves (str "Task 4 result"))] s in
  0%nat ∈ started s' ∧ before 3%nat 0%nat (started s').
Proof.
  assert (Hin : 0%nat ∈ started
            (run [Start; TaskSettles 1 (Resolves (str "Task 2 result"));
                  TaskSettles 3 (Resolves (str "Task 4 result"))]
               (run [Add "Task 1" (Some 2); Add "Task 2" (Some 1);
                     Add "Task 3" (Some 2); Add "Task 4" (Some 1)]
                  (constructor usage_options))))
    by (vm_compute; do 2 apply list_elem_of_further; apply list_elem_of_here).
  intros s s'. split; [exact Hin |]. revert Hin. fold s s'.
  pose proof (priority_order usage_options
                [Add "Task 1" (Some 2); Add "Task 2" (Some 1);
                 Add "Task 3" (Some 2); Add "Task 4" (Some 1)]
                {| task := "Task 4"; promise := 3; priority := 1 |}
                {| task := "Task 1"; promise := 0; priority := 2 |}
                [Start; TaskSettles 1 (Resolves (str "Task 2 result"));
                 TaskSettles 3 (Resolves (str "Task 4 result"))]) as H.
  destruct H as (_ & _ & H).
  - vm_compute. do 1 apply list_elem_of_further. apply list_elem_of_here.
  - vm_compute. do 2 apply list_elem_of_further. apply list_elem_of_here.
  - simpl. lia.
  - exact H.
Defined.

(** ** Further facts *)

(** *** A paused queue *)

Lemma processQueue_loop_paused w s :
  paused s = true → processQueue_loop w s = s.
Proof. intros H. destruct w; simpl; [done |]. by rewrite H. Qed.

Lemma runTask_resume_paused p o s :
  paused s = true →
  paused (runTask_resume p o s) = true ∧
  started (runTask_resume p o s) = started s ∧
  taskQueue (runTask_resume p o s) = taskQueue s ∧
  runningTasks (runTask_resume p o s) = runningTasks s - 1.
Proof.
  intros Hp. unfold runTask_resume.
  set (s1 := match o with Resolves _ => _ | Rejects _ => _ end).
  assert (H1 : paused s1 = true ∧ started s1 = started s ∧
               taskQueue s1 = taskQueue s ∧ runningTasks s1 = runningTasks s)
    by (subst s1; by destruct o).
  destruct H1 as (Hp1 & Hst1 & Htq1 & Hr1).
  simpl. rewrite Hp1.
  case_match; simpl; by rewrite ?Hr1.
Qed.

Lemma paused_step op s :
  paused s = true → op ≠ Start →
  paused (step op s) = true ∧ started (step op s) = started s ∧
  runningTasks (step op s) ≤ runningTasks s.
Proof.
  intros Hp Hop. destruct op; simpl; try done.
  - unfold add; simpl. by rewrite Hp, andb_false_r.
  - unfold onEmpty; simpl. by case_match.
  - unfold onIdle; simpl. by case_match.
  - unfold task_settles.
    destruct (lookup_call p (calls s)) as [c|]; [| done].
    assert (Hrm : paused (set_calls (remove_call p (calls s)) s) = true) by done.
    destruct (runTask_resume_paused p o _ Hrm) as (H1 & H2 & _ & H4).
    destruct (c_wrapper c) as [[| |]|]; rewrite ?H1, ?H2, ?H4; simpl;
      repeat split; try done; lia.
  - unfold timer_fires.
    destruct (lookup_call p (calls s)) as [c|] eqn:Hl; [| done].
    destruct (c_wrapper c) as [[| |]|]; try done.
    assert (Hup : paused (set_calls (update_call p (Rejected timeout_error)
                                       (calls s)) s) = true) by done.
    destruct (runTask_resume_paused p (Rejects timeout_error) _ Hup)
      as (H1 & H2 & _ & H4).
    rewrite H1, H2, H4. simpl. repeat split; try done. lia.
Qed.

(** X1: after [pause()], and until [start()] is called, no task is
    started, whatever else happens (tasks added, tasks settling, timers
    firing, [clear], [onEmpty], [onIdle]): the queue stays paused, the list
    of started entries does not change and the counter does not grow. *)
Theorem paused_starts_nothing s ops :
  paused s = true → Start ∉ ops →
  paused (run ops s) = true ∧ started (run ops s) = started s ∧
  runningTasks (run ops s) ≤ runningTasks s.
Proof.
  intros Hp. induction ops as [|op ops IH] using rev_ind; intros Hops.
  - simpl. repeat split; try done.
  - rewrite run_snoc. rewrite elem_of_app, list_elem_of_singleton in Hops.
    destruct IH as (IH1 & IH2 & IH3); [tauto |].
    destruct (paused_step op (run ops s) IH1) as (H1 & H2 & H3);
      [intros ->; tauto |].
    repeat split; [done | congruence | lia].
Qed.

Lemma paused_starts_nothing_witness :
  started
    (run [Add "b" (Some 1); TaskSettles 0 (Resolves (str "r")); OnIdle]
       (pause (run [Add "a" None] (constructor no_options))))
  = started (pause (run [Add "a" None] (constructor no_options))).
Proof.
  refine (proj1 (proj2 (paused_starts_nothing
                          (pause (run [Add "a" None] (constructor no_options)))
                          [Add "b" (Some 1); TaskSettles 0 (Resolves (str "r"));
                           OnIdle] _ _))).
  - reflexivity.
  - intros H. repeat (apply elem_of_cons in H as [H|H]; [discriminate H |]).
    by apply elem_of_nil in H.
Defined.

(** *** Events and the counter *)

Lemma count_event_emit ev' ev arg s :
  count_event ev' (emit ev arg s)
  = (count_event ev' s + if decide (ev = ev') then 1 else 0)%nat.
Proof.
  unfold count_event; simpl. rewrite filter_app, length_app. f_equal.
  rewrite filter_cons, filter_nil. simpl. by destruct (decide (ev = ev')).
Qed.

Lemma balanced_same s s' :
  runningTasks s' = runningTasks s → emitted s' = emitted s →
  started s' = started s → balanced s → balanced s'.
Proof.
  unfold balanced, count_event. intros -> -> ->. done.
Qed.

Lemma balanced_emit ev arg s :
  ev ≠ "active"%string → ev ≠ "completed"%string → ev ≠ "error"%string →
  balanced s → balanced (emit ev arg s).
Proof.
  intros H1 H2 H3 [Hr Hst]. unfold balanced.
  rewrite !count_event_emit, !decide_False by done. simpl.
  rewrite !Nat.add_0_r. done.
Qed.

Lemma balanced_loop w s : balanced s → balanced (processQueue_loop w s).
Proof.
  revert s. induction w as [|e w IH]; intros s Hs; simpl; [done |].
  case_match; [| done]. apply IH. destruct Hs as [Hr Hst].
  assert (Hact : ∀ ev, count_event ev (runTask e (set_taskQueue w s))
                 = (count_event ev s
                    + if decide ("active"%string = ev) then 1 else 0)%nat).
  { intros ev. unfold runTask.
    apply (count_event_emit ev "active" None
             (set_runningTasks (runningTasks s + 1) (set_taskQueue w s))). }
  unfold balanced. rewrite !Hact. simpl. rewrite length_app. simpl.
  rewrite !Nat.add_0_r. split; [rewrite Hr; lia | rewrite Hst; lia].
Qed.

Lemma balanced_runTask_resume p o s :
  balanced s → balanced (runTask_resume p o s).
Proof.
  intros [Hr Hst]. unfold runTask_resume.
  set (s1 := match o with Resolves _ => _ | Rejects _ => _ end).
  set (s2 := set_runningTasks (runningTasks s1 - 1) s1).
  assert (H2 : balanced s2).
  { unfold balanced. subst s2 s1. destruct o.
    - change (count_event ?ev (set_runningTasks _ ?x)) with (count_event ev x).
      rewrite !count_event_emit. simpl. rewrite !Nat.add_0_r.
      change (count_event ?ev (set_promises _ s)) with (count_event ev s).
      split; [rewrite Hr; lia | exact Hst].
    - change (count_event ?ev (set_runningTasks _ ?x)) with (count_event ev x).
      rewrite !count_event_emit. simpl. rewrite !Nat.add_0_r.
      change (count_event ?ev (set_promises _ s)) with (count_event ev s).
      split; [rewrite Hr; lia | exact Hst]. }
  set (s3 := if paused s2 then s2 else processQueue s2).
  assert (H3 : balanced s3).
  { subst s3. destruct (paused s2); [done |]. by apply balanced_loop. }
  apply balanced_emit; try done.
  destruct (bool_decide (taskQueue s3 = []) && (runningTasks s3 =? 0));
    [by apply balanced_emit | done].
Qed.

Lemma balanced_step op s : balanced s → balanced (step op s).
Proof.
  intros Hs. destruct op; simpl; try done.
  - unfold add; simpl.
    match goal with |- balanced (if _ then processQueue ?x else ?x) =>
      assert (Hx : balanced x) end.
    { by apply balanced_emit. }
    case_match; [by apply balanced_loop | done].
  - unfold start. case_match; [| done]. by apply balanced_loop.
  - unfold onEmpty; simpl. by case_match.
  - unfold onIdle; simpl. by case_match.
  - unfold task_settles. repeat case_match; try done;
      by apply balanced_runTask_resume.
  - unfold timer_fires. repeat case_match; try done.
    by apply balanced_runTask_resume.
Qed.

(** X2: the events tell the counter: in every state the operations reach,
    [runningTasks] is the number of "active" events emitted less the number
    of "completed" and of "error" events, and one "active" was emitted per
    task started. *)
Theorem events_count_running o ops :
  let s := run ops (constructor o) in
  runningTasks s =
    Z.of_nat (count_event "active" s) - Z.of_nat (count_event "completed" s)
    - Z.of_nat (count_event "error" s) ∧
  count_event "active" s = length (started s).
Proof.
  apply (run_invariant balanced); [apply balanced_step | done].
Qed.

(** *** The counter and the calls awaited *)

Lemma awaited_mk_call tmo e : awaited (mk_call tmo e) = true.
Proof. unfold awaited, mk_call; simpl. by destruct (0 <? tmo). Qed.

Lemma awaiting_batch b rest s :
  awaiting (batch b rest s) = (awaiting s + length b)%nat.
Proof.
  unfold awaiting; simpl. rewrite filter_app, length_app. f_equal.
  induction b as [|e b IH]; [done |].
  rewrite fmap_cons, filter_cons, decide_True by apply awaited_mk_call.
  simpl. by rewrite IH.
Qed.

Lemma awaiting_remove p cs c :
  lookup_call p cs = Some c →
  (length (filter (λ c, awaited c = true) (remove_call p cs))
   + (if awaited c then 1 else 0)
   = length (filter (λ c, awaited c = true) cs))%nat.
Proof.
  induction cs as [|c' cs IH]; simpl; [done |].
  destruct (decide (c_promise c' = p)) as [Heq|Hne].
  - intros [= ->]. rewrite filter_cons.
    destruct (awaited c) eqn:Ha.
    + rewrite decide_True by done. simpl. lia.
    + rewrite decide_False by congruence. lia.
  - intros H. rewrite !filter_cons.
    destruct (decide (awaited c' = true)); simpl; rewrite <- (IH H); lia.
Qed.

Lemma awaiting_update p cs c e :
  lookup_call p cs = Some c → awaited c = true →
  (length (filter (λ c, awaited c = true) (update_call p (Rejected e) cs)) + 1
   = length (filter (λ c, awaited c = true) cs))%nat.
Proof.
  induction cs as [|c' cs IH]; simpl; [done |].
  destruct (decide (c_promise c' = p)) as [Heq|Hne].
  - intros [= ->] Ha. rewrite !filter_cons.
    rewrite decide_False by (unfold awaited; simpl; congruence).
    rewrite decide_True by done. simpl. lia.
  - intros H Ha. rewrite !filter_cons.
    destruct (decide (awaited c' = true)); simpl; rewrite <- (IH H Ha); lia.
Qed.

Lemma counted_processQueue s :
  no_listener "active" s →
  runningTasks s = Z.of_nat (awaiting s) →
  runningTasks (processQueue s) = Z.of_nat (awaiting (processQueue s)).
Proof.
  intros Hq Hs. destruct (processQueue_batch s Hq) as (k & _ & -> & _).
  rewrite awaiting_batch. simpl. lia.
Qed.

Lemma counted_runTask_resume p o s :
  no_listener "active" s →
  runningTasks s = Z.of_nat (awaiting s) + 1 →
  runningTasks (runTask_resume p o s)
  = Z.of_nat (awaiting (runTask_resume p o s)).
Proof.
  intros Hq Hs. unfold runTask_resume.
  set (s1 := match o with Resolves _ => _ | Rejects _ => _ end).
  assert (H1 : no_listener "active" s1 ∧ runningTasks s1 = runningTasks s ∧
               awaiting s1 = awaiting s).
  { subst s1. destruct o; (split; [by apply no_listener_emit | done]). }
  destruct H1 as (Hq1 & Hr1 & Ha1).
  set (s2 := set_runningTasks (runningTasks s1 - 1) s1).
  assert (H2 : runningTasks s2 = Z.of_nat (awaiting s2)).
  { subst s2. unfold awaiting in *. simpl. lia. }
  set (s3 := if paused s2 then s2 else processQueue s2).
  assert (H3 : runningTasks s3 = Z.of_nat (awaiting s3)).
  { subst s3. destruct (paused s2); [done |]. by apply counted_processQueue. }
  by destruct (bool_decide (taskQueue s3 = []) && (runningTasks s3 =? 0)).
Qed.

Lemma counted_step op s :
  wf s → runningTasks s = Z.of_nat (awaiting s) →
  runningTasks (step op s) = Z.of_nat (awaiting (step op s)).
Proof.
  intros Hwf Hs.
  assert (Hq : no_listener "active" s) by (by apply wf_no_listener).
  destruct op; simpl; try done.
  - unfold add; simpl. case_match; [| done].
    apply counted_processQueue; [by apply no_listener_emit | done].
  - unfold start. case_match; [| done]. by apply counted_processQueue.
  - unfold onEmpty; simpl. by case_match.
  - unfold onIdle; simpl. by case_match.
  - unfold task_settles.
    destruct (lookup_call p (calls s)) as [c|] eqn:Hl; [| done].
    pose proof (awaiting_remove p (calls s) c Hl) as Hrm.
    assert (Hres : awaited c = true →
              runningTasks
                (runTask_resume p o (set_calls (remove_call p (calls s)) s))
              = Z.of_nat (awaiting
                  (runTask_resume p o (set_calls (remove_call p (calls s)) s)))).
    { intros Ha. apply counted_runTask_resume; [done |].
      rewrite Ha in Hrm. unfold awaiting in *. simpl. lia. }
    destruct (c_wrapper c) as [[| |]|] eqn:Hw;
      try (apply Hres; unfold awaited; by rewrite Hw);
      (assert (Ha : awaited c = false) by (unfold awaited; by rewrite Hw));
      rewrite Ha in Hrm; unfold awaiting in *; simpl; lia.
  - unfold timer_fires.
    destruct (lookup_call p (calls s)) as [c|] eqn:Hl; [| done].
    destruct (c_wrapper c) as [[| |]|] eqn:Hw; try done.
    apply counted_runTask_resume; [done |].
    assert (Ha : awaited c = true) by (unfold awaited; by rewrite Hw).
    pose proof (awaiting_update p (calls s) c timeout_error Hl Ha) as Hup.
    unfold awaiting in *. simpl. lia.
Qed.

Lemma reachable_counted o ops :
  let s := run ops (constructor o) in
  wf s ∧ runningTasks s = Z.of_nat (awaiting s).
Proof.
  apply (run_invariant (λ s, wf s ∧ runningTasks s = Z.of_nat (awaiting s))).
  - intros op s [Hwf Hs]. split; [by apply wf_step | by apply counted_step].
  - split; [apply wf_constructor | done].
Qed.

(** X3: in every state the operations reach, [runningTasks] is the number
    of calls [runTask] is still awaiting (tasks started that have neither
    settled nor timed out); in particular it is never negative. *)
Theorem runningTasks_counts_awaited o ops :
  let s := run ops (constructor o) in
  runningTasks s = Z.of_nat (awaiting s) ∧ 0 ≤ runningTasks s.
Proof.
  intros s. destruct (reachable_counted o ops) as [_ H]. fold s in H.
  split; [done | lia].
Qed.

(** *** What [add] does when it cannot dispatch *)

(** X4: on a queue constructed with [autoStart] false, or paused, or full,
    [add] only enqueues: nothing is started, the counter and the calls are
    as before, the waiting array is the old one with the new entry, sorted,
    and the promise returned is pending. *)
Theorem add_only_enqueues o ops t pr :
  let s := run ops (constructor o) in
  let p := (add t pr s).1 in
  let s' := (add t pr s).2 in
  autoStart s = false ∨ paused s = true ∨
  below (runningTasks s) (concurrency s) = false →
  started s' = started s ∧ runningTasks s' = runningTasks s ∧
  calls s' = calls s ∧
  taskQueue s' ≡ₚ
    {| task := t; promise := p; priority := default 0 pr |} :: taskQueue s ∧
  StronglySorted by_priority (taskQueue s') ∧
  promises s' !! p = Some Pending.
Proof.
  intros s p s' Hstop.
  pose proof (reachable_wf o ops) as Hwf. fold s in Hwf.
  assert (Heq : s' = emit "add" None
            (set_taskQueue
               (Array_sort (λ a b, priority a - priority b)
                  (taskQueue s ++
                     [{| task := t; promise := length (promises s);
                         priority := default 0 pr |}]))
               (set_promises (promises s ++ [Pending]) s))).
  { subst s'. unfold add; simpl.
    destruct (autoStart s && negb (paused s)) eqn:Hc; [| done].
    apply andb_true_iff in Hc as [Ha Hp]. apply negb_true_iff in Hp.
    destruct Hstop as [H|[H|H]]; [congruence | congruence |].
    unfold processQueue. by rewrite processQueue_loop_full. }
  rewrite Heq. rewrite emit_quiet by (by apply (wf_no_listener "add" s)).
  simpl. repeat split; try done.
  - rewrite Array_sort_perm. solve_Permutation.
  - apply Array_sort_sorted.
  - by rewrite lookup_app_r, Nat.sub_diag.
Qed.

Lemma add_only_enqueues_witness :
  started (add "b" (Some (-1))
             (run [Add "a" None]
                (constructor {| o_concurrency := Some (Finite 1);
                                o_timeout := None; o_throwOnTimeout := None;
                                o_autoStart := None |}))).2
  = started (run [Add "a" None]
               (constructor {| o_concurrency := Some (Finite 1);
                               o_timeout := None; o_throwOnTimeout := None;
                               o_autoStart := None |})).
Proof.
  refine (proj1 (add_only_enqueues
                   {| o_concurrency := Some (Finite 1); o_timeout := None;
                      o_throwOnTimeout := None; o_autoStart := None |}
                   [Add "a" None] "b" (Some (-1)) _)).
  right; right. reflexivity.
Defined.

(** *** [pause()] then [start()] *)

Lemma set_paused_back s :
  paused s = false → set_paused false (set_paused true s) = s.
Proof. destruct s; simpl. by intros ->. Qed.

(** X5: on a queue constructed with [autoStart] true that is not paused,
    [pause()] followed at once by [start()] changes nothing: nothing that
    could be started was waiting. *)
Theorem pause_start_noop o ops :
  let s := run ops (constructor o) in
  autoStart s = true → paused s = false → start (pause s) = s.
Proof.
  intros s Ha Hp. unfold start, pause. simpl.
  rewrite set_paused_back by done.
  destruct (reachable_drained o ops Ha Hp) as [Htq|Hfull].
  - unfold processQueue. fold s in Htq. by rewrite Htq.
  - by apply processQueue_loop_full.
Qed.

Lemma pause_start_noop_witness :
  start (pause (run [Add "a" None; Add "b" None]
                  (constructor {| o_concurrency := Some (Finite 1);
                                  o_timeout := None; o_throwOnTimeout := None;
                                  o_autoStart := None |})))
  = run [Add "a" None; Add "b" None]
      (constructor {| o_concurrency := Some (Finite 1); o_timeout := None;
                      o_throwOnTimeout := None; o_autoStart := None |}).
Proof.
  apply (pause_start_noop
           {| o_concurrency := Some (Finite 1); o_timeout := None;
              o_throwOnTimeout := None; o_autoStart := None |}
           [Add "a" None; Add "b" None]); reflexivity.
Defined.

(** *** A settlement hands the place to the next waiting task *)

Lemma runTask_resume_batch p o s :
  no_listener "active" s → paused s = false →
  ∃ k : nat,
    taskQueue (runTask_resume p o s) = drop k (taskQueue s) ∧
    started (runTask_resume p o s)
    = started s ++ (promise <$> take k (taskQueue s)) ∧
    (below (runningTasks s - 1 + Z.of_nat k) (concurrency s) = false ∨
     drop k (taskQueue s) = []).
Proof.
  intros Hq Hp. unfold runTask_resume.
  set (s1 := match o with Resolves _ => _ | Rejects _ => _ end).
  assert (H1 : no_listener "active" s1 ∧ paused s1 = false ∧
               taskQueue s1 = taskQueue s ∧ started s1 = started s ∧
               runningTasks s1 = runningTasks s ∧
               concurrency s1 = concurrency s).
  { subst s1. destruct o; (split; [by apply no_listener_emit | done]). }
  destruct H1 as (Hq1 & Hp1 & Htq1 & Hst1 & Hr1 & Hc1).
  set (s2 := set_runningTasks (runningTasks s1 - 1) s1).
  assert (Hp2 : paused s2 = false) by done.
  rewrite Hp2.
  destruct (processQueue_batch s2) as (k & _ & Heq & Hstop & _); [done |].
  exists k. rewrite Heq.
  assert (Hfields :
    taskQueue (batch (take k (taskQueue s2)) (drop k (taskQueue s2)) s2)
    = drop k (taskQueue s) ∧
    started (batch (take k (taskQueue s2)) (drop k (taskQueue s2)) s2)
    = started s ++ (promise <$> take k (taskQueue s))).
  { simpl. by rewrite Htq1, Hst1. }
  destruct Hfields as [Hf1 Hf2].
  split; [| split].
  - by case_match.
  - by case_match.
  - destruct Hstop as [H|[H|H]]; [congruence | left | right].
    + simpl in H. by rewrite Hr1, Hc1 in H.
    + simpl in H. by rewrite Htq1 in H.
Qed.

Lemma awaiting_pos c s : c ∈ calls s → awaited c = true → (0 < awaiting s)%nat.
Proof.
  intros Hc Ha. unfold awaiting.
  assert (Hin : c ∈ filter (λ c, awaited c = true) (calls s))
    by (by apply list_elem_of_filter).
  destruct (filter _ (calls s)); [by apply elem_of_nil in Hin | simpl; lia].
Qed.

(** X6: in a queue that is not paused, when a task that [runTask] awaits
    settles while entries wait, the first waiting entry is started in the
    same step (whatever [autoStart] is). *)
Theorem settlement_starts_next o ops c res e rest :
  let s := run ops (constructor o) in
  let s' := step (TaskSettles (c_promise c) res) s in
  paused s = false → c ∈ calls s → awaited c = true →
  taskQueue s = e :: rest →
  ∃ more, started s' = started s ++ promise e :: more.
Proof.
  intros s s' Hp Hc Ha Htq.
  destruct (reachable_counted o ops) as [Hwf Hcnt]. fold s in Hwf, Hcnt.
  pose proof (reachable_within o ops) as Hwithin. fold s in Hwithin.
  destruct (wf_disjoint s Hwf) as (_ & Hnd & _ & _).
  pose proof (lookup_call_unique _ (calls s) c Hnd Hc eq_refl) as Hlk.
  pose proof (awaiting_pos c s Hc Ha) as Hpos.
  assert (Hs' : s' = runTask_resume (c_promise c) res
                       (set_calls (remove_call (c_promise c) (calls s)) s)).
  { subst s'. simpl. unfold task_settles. rewrite Hlk.
    unfold awaited in Ha. by destruct (c_wrapper c) as [[]|]. }
  destruct (runTask_resume_batch (c_promise c) res
              (set_calls (remove_call (c_promise c) (calls s)) s))
    as (k & _ & Hst & Hstop); [by apply (wf_no_listener "active" s) | done |].
  rewrite <- Hs' in Hst. simpl in Hst, Hstop. rewrite Htq in Hst, Hstop.
  destruct k as [|k].
  - exfalso. destruct Hstop as [Hfull|Hnil]; [| done].
    rewrite Z.add_0_r in Hfull. unfold within in Hwithin.
    destruct (concurrency s) as [n|]; [| done]. simpl in Hfull.
    apply Z.ltb_ge in Hfull. lia.
  - simpl in Hst. eauto.
Qed.

Lemma settlement_starts_next_witness :
  ∃ more,
    started (step (TaskSettles 0 (Rejects (OtherError "failed")))
               (run [Add "a" None; Add "b" None]
                  (constructor {| o_concurrency := Some (Finite 1);
                                  o_timeout := None; o_throwOnTimeout := None;
                                  o_autoStart := None |})))
    = started (run [Add "a" None; Add "b" None]
                 (constructor {| o_concurrency := Some (Finite 1);
                                 o_timeout := None; o_throwOnTimeout := None;
                                 o_autoStart := None |}))
      ++ 1%nat :: more.
Proof.
  apply (settlement_starts_next
           {| o_concurrency := Some (Finite 1); o_timeout := None;
              o_throwOnTimeout := None; o_autoStart := None |}
           [Add "a" None; Add "b" None]
           {| c_promise := 0; c_task := "a"; c_wrapper := None |}
           (Rejects (OtherError "failed"))
           {| task := "b"; promise := 1; priority := 0 |} []);
    try reflexivity.
  vm_compute. apply list_elem_of_here.
Defined.

(** *** A promise is settled by its own task only *)

Lemma held_loop q w s : held q s → held q (processQueue_loop w s).
Proof.
  revert s. induction w as [|e w IH]; intros s Hq; simpl; [done |].
  case_match; [| done]. apply IH. unfold runTask.
  by apply (held_emit "active" None q
              (set_runningTasks (runningTasks s + 1) (set_taskQueue w s))).
Qed.

Lemma held_runTask_resume p q o s :
  q ≠ p → held q s → held q (runTask_resume p o s).
Proof.
  intros Hne [Hq Hl]. unfold runTask_resume.
  set (s1 := match o with Resolves _ => _ | Rejects _ => _ end).
  assert (H1 : held q s1).
  { subst s1. destruct o; apply held_emit; (split; [| done]); simpl;
      by rewrite settle_other. }
  set (s2 := set_runningTasks (runningTasks s1 - 1) s1).
  set (s3 := if paused s2 then s2 else processQueue s2).
  assert (H3 : held q s3).
  { subst s3. destruct (paused s2); [done |]. by apply held_loop. }
  apply held_emit.
  destruct (bool_decide (taskQueue s3 = []) && (runningTasks s3 =? 0));
    [by apply held_emit | done].
Qed.

Lemma held_step_other q op s :
  held q s → (∀ res, op ≠ TaskSettles q res) → op ≠ TimerFires q →
  held q (step op s).
Proof.
  intros Hq Hs Ht. destruct op; simpl; try done.
  - unfold add; simpl.
    match goal with |- held q (if _ then processQueue ?x else ?x) =>
      assert (Hx : held q x) end.
    { apply (held_emit "add" None). destruct Hq as [Hq Hl].
      split; simpl; [by apply lookup_app_l_Some | done]. }
    case_match; [by apply held_loop | done].
  - unfold start. case_match; [| done]. by apply held_loop.
  - unfold onEmpty; simpl. by apply held_waiter.
  - unfold onIdle; simpl. by apply held_waiter.
  - unfold task_settles. repeat case_match; try done;
      (apply held_runTask_resume; [intros ->; by eapply Hs | done]).
  - unfold timer_fires. repeat case_match; try done.
    apply held_runTask_resume; [congruence | done].
Qed.

(** X7: the promise of a waiting entry or of an awaited call is settled by
    nothing but the settlement or the timer of its own task: after every
    other operation (another task failing or timing out, [add], [clear],
    [pause], [start], [onEmpty], [onIdle]) it is still pending. *)
Theorem settled_by_own_task_only o ops q op :
  let s := run ops (constructor o) in
  (q ∈ promise <$> taskQueue s ∨
   ∃ c, c ∈ calls s ∧ c_promise c = q ∧ awaited c = true) →
  (∀ res, op ≠ TaskSettles q res) → op ≠ TimerFires q →
  promises s !! q = Some Pending ∧ promises (step op s) !! q = Some Pending.
Proof.
  intros s Hq Hs Ht.
  pose proof (reachable_wf o ops) as Hwf. fold s in Hwf.
  destruct (wf_disjoint s Hwf) as (_ & _ & Htq & Hcs).
  assert (Hheld : held q s).
  { destruct Hq as [Hin|(c & Hc & <- & Ha)].
    - split; [| by apply Htq].
      apply list_elem_of_fmap in Hin as (e & -> & He).
      by apply (wf_waiting s Hwf).
    - split; [by apply (wf_awaited s Hwf) |].
      apply Hcs. by apply list_elem_of_fmap_2. }
  split; [apply Hheld |]. by apply held_step_other.
Qed.

Lemma settled_by_own_task_only_witness :
  promises (step (TaskSettles 0 (Rejects (OtherError "failed")))
              (run [Add "a" None; Add "b" None] (constructor no_options)))
    !! 1%nat = Some Pending.
Proof.
  refine (proj2 (settled_by_own_task_only no_options
                   [Add "a" None; Add "b" None] 1%nat
                   (TaskSettles 0 (Rejects (OtherError "failed"))) _ _ _)).
  - right. exists {| c_promise := 1; c_task := "b"; c_wrapper := None |}.
    split; [| done]. vm_compute. apply list_elem_of_further, list_elem_of_here.
  - intros res. discriminate.
  - discriminate.
Defined.

(** *** The promise of [onIdle] *)

Lemma fire_hit (v : Value) hit h q :
  q ∈ snd <$> hit → h !! q = Some Pending →
  foldl (λ h (l : string * nat), settle l.2 (Fulfilled v) h) h hit !! q
  = Some (Fulfilled v).
Proof.
  revert h. induction hit as [|l hit IH]; intros h Hq Hp; simpl.
  - by apply elem_of_nil in Hq.
  - destruct (decide (l.2 = q)) as [Heq|Hne].
    + apply fire_settled; [| done]. rewrite Heq. by apply settle_pending.
    + rewrite fmap_cons in Hq. apply elem_of_cons in Hq as [Hq|Hq]; [done |].
      apply IH; [done |]. by rewrite settle_other.
Qed.

Lemma waiting_for_emit_other ev' ev arg p s :
  ev' ≠ ev → waiting_for ev p s → waiting_for ev p (emit ev' arg s).
Proof.
  intros Hev (Hp & Htq & Hcs & Hin & Hl). repeat split; try done.
  - rewrite emit_promise_other; [done |].
    intros l Hl' Heq Hname. apply Hev. rewrite <- Hname. by apply Hl.
  - simpl. apply list_elem_of_filter. split; [simpl; congruence | done].
  - intros l Hl'%emit_listeners. by apply Hl.
Qed.

Lemma waiting_for_emit ev arg p s :
  waiting_for ev p s →
  promises (emit ev arg s) !! p = Some (Fulfilled (default undefined arg)).
Proof.
  intros (Hp & _ & _ & Hin & _). simpl. apply fire_hit; [| done].
  apply (list_elem_of_fmap_2' snd _ (ev, p)); [| done].
  by apply list_elem_of_filter.
Qed.

Lemma waiting_for_loop ev p w s :
  ev ≠ "active"%string → waiting_for ev p s → p ∉ promise <$> w →
  waiting_for ev p (processQueue_loop w s).
Proof.
  intros Hev. revert s. induction w as [|e w IH]; intros s Hq Hw; simpl; [done |].
  case_match; [| done].
  rewrite fmap_cons in Hw. apply not_elem_of_cons in Hw as [Hne Hw].
  apply IH; [| done].
  destruct (waiting_for_emit_other "active" ev None p
              (set_runningTasks (runningTasks s + 1) (set_taskQueue w s)))
    as (Hp & _ & Hcs & Hin & Hl); [done | |].
  { destruct Hq as (? & ? & ? & ? & ?). by repeat split. }
  unfold runTask. repeat split; try done.
  change (p ∉ c_promise <$>
            (calls s ++
               [{| c_promise := promise e; c_task := task e;
                   c_wrapper := if 0 <? timeout s then Some withTimeout
                                else None |}])).
  rewrite fmap_app. simpl. intros [Hc|Hc%list_elem_of_singleton]%elem_of_app.
  - by destruct Hq as (_ & _ & Hc' & _).
  - done.
Qed.

Lemma waiting_for_waiter (b : bool) ev' ev p s :
  waiting_for ev p s →
  let p' := length (promises s) in
  let s0 := set_promises (promises s ++ [Pending]) s in
  waiting_for ev p
    (if b then set_promises (settle p' (Fulfilled undefined) (promises s0)) s0
     else set_listeners (listeners s0 ++ [(ev', p')]) s0).
Proof.
  intros (Hp & Htq & Hcs & Hin & Hl) p' s0.
  assert (Hne : p' ≠ p).
  { apply lookup_lt_Some in Hp. subst p'. lia. }
  destruct b; repeat split; simpl; try done.
  - rewrite settle_other by done. by apply lookup_app_l_Some.
  - by apply lookup_app_l_Some.
  - apply elem_of_app. by left.
  - intros l [Hl'|Hl'%list_elem_of_singleton]%elem_of_app Heq; [by apply Hl |].
    subst l. simpl in Heq. done.
Qed.

(** When [runTask] resumes for another promise, the promise of [onIdle] is
    resolved if the queue is idle afterwards and waits on otherwise. *)
Lemma waiting_for_idle_resume p q o s :
  q ≠ p → waiting_for "idle" p s →
  let s' := runTask_resume q o s in
  (is_idle s' ∧ promises s' !! p = Some (Fulfilled undefined)) ∨
  (¬ is_idle s' ∧ waiting_for "idle" p s').
Proof.
  intros Hne Hw. unfold runTask_resume.
  set (s1 := match o with Resolves _ => _ | Rejects _ => _ end).
  assert (H1 : waiting_for "idle" p s1).
  { destruct Hw as (Hp & Htq & Hcs & Hin & Hl).
    subst s1. destruct o; (apply waiting_for_emit_other; [done |]);
      repeat split; simpl; try done; by rewrite settle_other. }
  set (s2 := set_runningTasks (runningTasks s1 - 1) s1).
  assert (H2 : waiting_for "idle" p s2) by exact H1.
  set (s3 := if paused s2 then s2 else processQueue s2).
  assert (H3 : waiting_for "idle" p s3).
  { subst s3. destruct (paused s2); [done |].
    apply waiting_for_loop; [done | done |]. by destruct H2 as (_ & ? & _). }
  destruct (bool_decide (taskQueue s3 = []) && (runningTasks s3 =? 0)) eqn:Hc.
  - left. apply andb_true_iff in Hc as [Htq Hr].
    apply bool_decide_eq_true in Htq. apply Z.eqb_eq in Hr.
    split; [by split |].
    apply settled_emit; [| done].
    by apply (waiting_for_emit "idle" None).
  - right. split.
    + intros [Htq Hr]. simpl in Htq, Hr.
      apply andb_false_iff in Hc as [Hc|Hc].
      * by apply bool_decide_eq_false in Hc.
      * apply Z.eqb_neq in Hc. done.
    + by apply waiting_for_emit_other.
Qed.

Lemma waiting_for_idle_step p op s :
  waiting_for "idle" p s →
  (is_idle (step op s) ∧ promises (step op s) !! p = Some (Fulfilled undefined))
  ∨ waiting_for "idle" p (step op s).
Proof.
  intros Hw. destruct op; simpl.
  - right. unfold add; simpl.
    match goal with |- waiting_for _ p (if _ then processQueue ?x else ?x) =>
      assert (Hx : waiting_for "idle" p x) end.
    { apply waiting_for_emit_other; [done |].
      destruct Hw as (Hp & Htq & Hcs & Hin & Hl).
      repeat split; simpl; try done.
      - by apply lookup_app_l_Some.
      - rewrite Array_sort_perm, fmap_app. simpl.
        intros [H|H%list_elem_of_singleton]%elem_of_app; [done |].
        apply lookup_lt_Some in Hp. lia. }
    case_match; [| done].
    apply waiting_for_loop; [done | done |]. by destruct Hx as (_ & ? & _).
  - by right.
  - right. unfold start. case_match; [| done].
    apply waiting_for_loop; [done | done |]. by destruct Hw as (_ & ? & _).
  - right. destruct Hw as (Hp & Htq & Hcs & Hin & Hl).
    repeat split; simpl; try done. apply not_elem_of_nil.
  - right. unfold onEmpty; simpl. by apply waiting_for_waiter.
  - right. unfold onIdle; simpl. by apply waiting_for_waiter.
  - unfold task_settles.
    destruct (lookup_call p0 (calls s)) as [c|] eqn:Hlk; [| by right].
    apply lookup_call_Some in Hlk as [Hc Heq].
    assert (Hne : p0 ≠ p).
    { intros ->. destruct Hw as (_ & _ & Hcs & _). apply Hcs.
      rewrite <- Heq. by apply list_elem_of_fmap_2. }
    assert (Hrm : waiting_for "idle" p (set_calls (remove_call p0 (calls s)) s)).
    { destruct Hw as (Hp & Htq & Hcs & Hin & Hl). repeat split; simpl; try done.
      intros H. apply Hcs. eapply elem_of_sublist; [exact H |].
      apply fmap_sublist, remove_call_sublist. }
    destruct (c_wrapper c) as [[| |]|]; try (by right);
      destruct (waiting_for_idle_resume p p0 o _ Hne Hrm) as [?|[_ ?]]; auto.
  - unfold timer_fires.
    destruct (lookup_call p0 (calls s)) as [c|] eqn:Hlk; [| by right].
    apply lookup_call_Some in Hlk as [Hc Heq].
    destruct (c_wrapper c) as [[| |]|]; try (by right).
    assert (Hne : p0 ≠ p).
    { intros ->. destruct Hw as (_ & _ & Hcs & _). apply Hcs.
      rewrite <- Heq. by apply list_elem_of_fmap_2. }
    assert (Hup : waiting_for "idle" p
              (set_calls (update_call p0 (Rejected timeout_error) (calls s)) s)).
    { destruct Hw as (Hp & Htq & Hcs & Hin & Hl). repeat split; simpl; try done.
      by rewrite update_call_ids. }
    destruct (waiting_for_idle_resume p p0 (Rejects timeout_error) _ Hne Hup)
      as [?|[_ ?]]; auto.
Qed.

(** [onIdle] in a state the operations reach. *)
Lemma onIdle_result o ops :
  let s := run ops (constructor o) in
  let p := (onIdle s).1 in
  (is_idle s → promises (onIdle s).2 !! p = Some (Fulfilled undefined)) ∧
  (¬ is_idle s → waiting_for "idle" p (onIdle s).2).
Proof.
  intros s p. pose proof (reachable_wf o ops) as Hwf. fold s in Hwf.
  pose proof (fresh_not_id s Hwf) as Hfresh.
  unfold ids in Hfresh. rewrite !elem_of_app in Hfresh.
  split.
  - intros [Htq Hr]. unfold onIdle; simpl.
    rewrite bool_decide_true, Hr by done. simpl.
    apply settle_pending. by rewrite lookup_app_r, Nat.sub_diag.
  - intros Hn. unfold onIdle; simpl.
    destruct (bool_decide (taskQueue s = []) && (runningTasks s =? 0)) eqn:Hc.
    { exfalso. apply Hn. apply andb_true_iff in Hc as [Htq Hr].
      apply bool_decide_eq_true in Htq. apply Z.eqb_eq in Hr. by split. }
    repeat split; simpl.
    + by rewrite lookup_app_r, Nat.sub_diag.
    + tauto.
    + tauto.
    + apply elem_of_app. right. apply list_elem_of_here.
    + intros l [Hin|Hin%list_elem_of_singleton]%elem_of_app Heq.
      * exfalso. apply Hfresh. right; right.
        change (length (promises s)) with p. rewrite <- Heq.
        by apply list_elem_of_fmap_2.
      * by subst l.
Qed.

Lemma onIdle_waiting o ops ops' :
  let s := run ops (constructor o) in
  let p := (onIdle s).1 in
  let x := run ops' (onIdle s).2 in
  ¬ is_idle s → promises x !! p = Some Pending → waiting_for "idle" p x.
Proof.
  intros s p x Hn Hp.
  assert (H : waiting_for "idle" p x ∨ promises x !! p = Some (Fulfilled undefined)).
  { apply (run_invariant
             (λ y, waiting_for "idle" p y ∨
                   promises y !! p = Some (Fulfilled undefined))).
    - intros op y [Hy|Hy].
      + destruct (waiting_for_idle_step p op y Hy) as [[_ ?]|?]; auto.
      + right. by apply settled_step.
    - left. by apply (proj2 (onIdle_result o ops)). }
  destruct H as [H|H]; [done | congruence].
Qed.

(** X9: a pending promise of [onIdle] is resolved only in a step after
    which nothing waits and nothing runs; and every settlement or timeout
    of an awaited task that leaves the queue so resolves it. *)
Theorem onIdle_resolved_when_idle o ops ops' op :
  let s := run ops (constructor o) in
  let p := (onIdle s).1 in
  let x := run ops' (onIdle s).2 in
  let x' := step op x in
  ¬ is_idle s → promises x !! p = Some Pending →
  (promises x' !! p = Some Pending ∨
   (promises x' !! p = Some (Fulfilled undefined) ∧ is_idle x')) ∧
  (∀ c res, c ∈ calls x → awaited c = true →
     op = TaskSettles (c_promise c) res ∨
     (op = TimerFires (c_promise c) ∧ c_wrapper c = Some Pending) →
     is_idle x' → promises x' !! p = Some (Fulfilled undefined)).
Proof.
  intros s p x x' Hn Hp.
  pose proof (onIdle_waiting o ops ops' Hn Hp) as Hw. fold s p x in Hw.
  split.
  - destruct (waiting_for_idle_step p op x Hw) as [[? ?]|(? & _)]; auto.
  - intros c res Hc Ha Hop Hidle.
    assert (Hwf : wf x).
    { subst x. change ((onIdle s).2) with (run [OnIdle] s). subst s.
      rewrite <- !run_app. apply reachable_wf. }
    destruct (wf_disjoint x Hwf) as (_ & Hnd & _ & _).
    pose proof (lookup_call_unique _ (calls x) c Hnd Hc eq_refl) as Hlk.
    assert (Hne : c_promise c ≠ p).
    { intros Heq. destruct Hw as (_ & _ & Hcs & _). apply Hcs.
      rewrite <- Heq. by apply list_elem_of_fmap_2. }
    destruct Hop as [->|[-> Hwr]].
    + assert (Hx' : x' = runTask_resume (c_promise c) res
                          (set_calls (remove_call (c_promise c) (calls x)) x)).
      { subst x'. simpl. unfold task_settles. rewrite Hlk.
        unfold awaited in Ha. by destruct (c_wrapper c) as [[]|]. }
      assert (Hrm : waiting_for "idle" p
                (set_calls (remove_call (c_promise c) (calls x)) x)).
      { destruct Hw as (Hp' & Htq & Hcs & Hin & Hl).
        repeat split; simpl; try done.
        intros H. apply Hcs. eapply elem_of_sublist; [exact H |].
        apply fmap_sublist, remove_call_sublist. }
      destruct (waiting_for_idle_resume p (c_promise c) res _ Hne Hrm)
        as [[_ H]|[H _]]; rewrite <- Hx' in H; [done | by destruct H].
    + assert (Hx' : x' = runTask_resume (c_promise c) (Rejects timeout_error)
                          (set_calls (update_call (c_promise c)
                                        (Rejected timeout_error) (calls x)) x)).
      { subst x'. simpl. unfold timer_fires. by rewrite Hlk, Hwr. }
      assert (Hup : waiting_for "idle" p
                (set_calls (update_call (c_promise c) (Rejected timeout_error)
                              (calls x)) x)).
      { destruct Hw as (Hp' & Htq & Hcs & Hin & Hl).
        repeat split; simpl; try done. by rewrite update_call_ids. }
      destruct (waiting_for_idle_resume p (c_promise c) (Rejects timeout_error)
                  _ Hne Hup) as [[_ H]|[H _]];
        rewrite <- Hx' in H; [done | by destruct H].
Qed.

Lemma onIdle_resolved_when_idle_witness :
  promises (step (TaskSettles 0 (Resolves (str "r")))
              (run [] (onIdle (run [Add "a" None] (constructor no_options))).2))
    !! 1%nat = Some (Fulfilled undefined).
Proof.
  refine (proj2 (onIdle_resolved_when_idle no_options [Add "a" None] []
                   (TaskSettles 0 (Resolves (str "r"))) _ _)
                {| c_promise := 0; c_task := "a"; c_wrapper := None |}
                (Resolves (str "r")) _ _ _ _).
  - intros [_ H]. vm_compute in H. discriminate H.
  - reflexivity.
  - vm_compute. apply list_elem_of_here.
  - reflexivity.
  - by left.
  - by split.
Defined.

(** *** [clear()] does not emit "idle" *)

Lemma stuck_step p op s :
  (∀ t pr, op ≠ Add t pr) →
  waiting_for "idle" p s ∧ taskQueue s = [] ∧ runningTasks s = 0 ∧
  awaiting s = 0%nat →
  waiting_for "idle" p (step op s) ∧ taskQueue (step op s) = [] ∧
  runningTasks (step op s) = 0 ∧ awaiting (step op s) = 0%nat.
Proof.
  intros Hop (Hw & Htq & Hr & Ha).
  assert (Hnone : ∀ c, c ∈ calls s → awaited c = false).
  { intros c Hc. destruct (awaited c) eqn:Hc'; [| done].
    pose proof (awaiting_pos c s Hc Hc'). lia. }
  destruct op; simpl.
  - by destruct (Hop t o_priority).
  - done.
  - unfold start. case_match; [| done].
    unfold processQueue. simpl. rewrite Htq. simpl. done.
  - destruct Hw as (? & ? & ? & ? & ?).
    unfold waiting_for, clear, awaiting in *. simpl.
    repeat split; try done. apply not_elem_of_nil.
  - unfold onEmpty; simpl. rewrite bool_decide_true by done.
    split; [by apply (waiting_for_waiter true "empty") | by repeat split].
  - unfold onIdle; simpl. rewrite bool_decide_true, Hr by done. simpl.
    split; [by apply (waiting_for_waiter true "idle") | by repeat split].
  - unfold task_settles.
    destruct (lookup_call p0 (calls s)) as [c|] eqn:Hlk; [| done].
    pose proof (awaiting_remove p0 (calls s) c Hlk) as Hrm.
    apply lookup_call_Some in Hlk as [Hc Heq].
    pose proof (Hnone c Hc) as Hcf. rewrite Hcf in Hrm.
    unfold awaited in Hcf.
    assert (Hrm' : waiting_for "idle" p
               (set_calls (remove_call p0 (calls s)) s)).
    { destruct Hw as (Hp & Htq' & Hcs & Hin & Hl).
      repeat split; simpl; try done.
      intros H. apply Hcs. eapply elem_of_sublist; [exact H |].
      apply fmap_sublist, remove_call_sublist. }
    destruct (c_wrapper c) as [[| |]|]; try done;
      (split; [exact Hrm' |]; split; [done |]; split; [done |];
       unfold awaiting in *; simpl; lia).
  - unfold timer_fires.
    destruct (lookup_call p0 (calls s)) as [c|] eqn:Hlk; [| done].
    apply lookup_call_Some in Hlk as [Hc Heq].
    pose proof (Hnone c Hc) as Hcf. unfold awaited in Hcf.
    by destruct (c_wrapper c) as [[| |]|].
Qed.

(** X10: [clear()] empties the waiting array without emitting "idle".
    When [onIdle()] was called while entries waited and nothing ran, and
    [clear()] then drops them, nothing waits and nothing runs, yet the
    promise of [onIdle] is pending, and it stays pending through every
    further operation as long as no task is added. *)
Theorem onIdle_pending_after_clear o ops ops' :
  let s := run ops (constructor o) in
  let p := (onIdle s).1 in
  let x := run ops' (clear (onIdle s).2) in
  taskQueue s ≠ [] → runningTasks s = 0 → (∀ t pr, Add t pr ∉ ops') →
  is_idle x ∧ promises x !! p = Some Pending.
Proof.
  intros s p x Htq Hr.
  assert (Hn : ¬ is_idle s) by (by intros [? _]).
  pose proof (proj2 (onIdle_result o ops) Hn) as Hw. fold s p in Hw.
  destruct (reachable_counted o ops) as [_ Hcnt]. fold s in Hcnt.
  assert (H0 : waiting_for "idle" p (clear (onIdle s).2) ∧
               taskQueue (clear (onIdle s).2) = [] ∧
               runningTasks (clear (onIdle s).2) = 0 ∧
               awaiting (clear (onIdle s).2) = 0%nat).
  { split; [| split; [done |]].
    - destruct Hw as (? & ? & ? & ? & ?). repeat split; simpl; try done.
      apply not_elem_of_nil.
    - assert (E1 : runningTasks (clear (onIdle s).2) = runningTasks s)
        by (unfold onIdle; simpl; by case_match).
      assert (E2 : awaiting (clear (onIdle s).2) = awaiting s)
        by (unfold onIdle, awaiting; simpl; by case_match).
      rewrite E1, E2. split; [done | lia]. }
  subst x. induction ops' as [|op ops' IH] using rev_ind; intros Hops.
  - destruct H0 as ((? & _) & ? & ? & _). by repeat split.
  - rewrite run_snoc.
    assert (Hprev : ∀ t pr, Add t pr ∉ ops').
    { intros t pr Hin. apply (Hops t pr). apply elem_of_app. by left. }
    assert (Hop : ∀ t pr, op ≠ Add t pr).
    { intros t pr ->. apply (Hops t pr). apply elem_of_app. right.
      apply list_elem_of_here. }
    assert (Hinv : ∀ ops1, (∀ t pr, Add t pr ∉ ops1) →
              waiting_for "idle" p (run ops1 (clear (onIdle s).2)) ∧
              taskQueue (run ops1 (clear (onIdle s).2)) = [] ∧
              runningTasks (run ops1 (clear (onIdle s).2)) = 0 ∧
              awaiting (run ops1 (clear (onIdle s).2)) = 0%nat).
    { clear IH Hops Hprev Hop. intros ops1.
      induction ops1 as [|op1 ops1 IH1] using rev_ind; intros Hno; [done |].
      rewrite run_snoc. apply stuck_step.
      - intros t pr ->. apply (Hno t pr). apply elem_of_app. right.
        apply list_elem_of_here.
      - apply IH1. intros t pr Hin. apply (Hno t pr). apply elem_of_app.
        by left. }
    destruct (stuck_step p op _ Hop (Hinv ops' Hprev))
      as ((? & _) & ? & ? & _).
    by repeat split.
Qed.

Lemma onIdle_pending_after_clear_witness :
  promises
    (run [Start; OnEmpty]
       (clear (onIdle (run [Pause; Add "a" None] (constructor no_options))).2))
    !! (onIdle (run [Pause; Add "a" None] (constructor no_options))).1
  = Some Pending.
Proof.
  refine (proj2 (onIdle_pending_after_clear no_options [Pause; Add "a" None]
                   [Start; OnEmpty] _ _ _)).
  - vm_compute. discriminate.
  - reflexivity.
  - intros t pr H. repeat (apply elem_of_cons in H as [H|H]; [discriminate H |]).
    by apply elem_of_nil in H.
Defined.

(** *** A queue without a timeout *)

Lemma no_wrapper_loop w s :
  timeout s ≤ 0 → no_wrapper s → no_wrapper (processQueue_loop w s).
Proof.
  revert s. induction w as [|e w IH]; intros s Ht Hs; simpl; [done |].
  case_match; [| done]. apply IH; [done |].
  unfold runTask. intros c. simpl.
  intros [Hc|Hc%list_elem_of_singleton]%elem_of_app; [by apply Hs |].
  subst c. simpl.
  assert ((0 <? timeout s) = false) as -> by (apply Z.ltb_ge; lia).
  done.
Qed.

Lemma no_wrapper_runTask_resume p o s :
  timeout s ≤ 0 → no_wrapper s → no_wrapper (runTask_resume p o s).
Proof.
  intros Ht Hs. unfold runTask_resume.
  set (s1 := match o with Resolves _ => _ | Rejects _ => _ end).
  assert (H1 : timeout s1 ≤ 0 ∧ no_wrapper s1) by (subst s1; by destruct o).
  destruct H1 as [Ht1 H1].
  set (s2 := set_runningTasks (runningTasks s1 - 1) s1).
  set (s3 := if paused s2 then s2 else processQueue s2).
  assert (H3 : no_wrapper s3).
  { subst s3. destruct (paused s2); [done |]. by apply no_wrapper_loop. }
  by destruct (bool_decide (taskQueue s3 = []) && (runningTasks s3 =? 0)).
Qed.

Lemma no_wrapper_step op s :
  timeout s ≤ 0 → no_wrapper s → no_wrapper (step op s).
Proof.
  intros Ht Hs. destruct op; simpl; try done.
  - unfold add; simpl. case_match; [| done]. by apply no_wrapper_loop.
  - unfold start. case_match; [| done]. by apply no_wrapper_loop.
  - unfold onEmpty; simpl. by case_match.
  - unfold onIdle; simpl. by case_match.
  - unfold task_settles.
    destruct (lookup_call p (calls s)) as [c|] eqn:Hlk; [| done].
    assert (Hrm : no_wrapper (set_calls (remove_call p (calls s)) s)).
    { intros c' Hc'. apply Hs. eapply elem_of_sublist; [exact Hc' |].
      apply remove_call_sublist. }
    destruct (c_wrapper c) as [[| |]|]; try done;
      by apply no_wrapper_runTask_resume.
  - unfold timer_fires.
    destruct (lookup_call p (calls s)) as [c|] eqn:Hlk; [| done].
    apply lookup_call_Some in Hlk as [Hc _]. by rewrite (Hs c Hc).
Qed.

Lemma reachable_no_wrapper o ops :
  let s := run ops (constructor o) in
  timeout s ≤ 0 → no_wrapper s.
Proof.
  intros s Ht. destruct (run_config ops (constructor o)) as (_ & Htmo & _).
  fold s in Htmo.
  assert (H : timeout s ≤ 0 ∧ no_wrapper s).
  { apply (run_invariant (λ x, timeout x ≤ 0 ∧ no_wrapper x)).
    - intros op x [Hx1 Hx2]. split; [| by apply no_wrapper_step].
      destruct (step_config op x) as (_ & -> & _). done.
    - split; [by rewrite <- Htmo | by intros c []%elem_of_nil]. }
  apply H.
Qed.

(** X11: in a queue whose timeout is 0 or negative (0 is the default) no
    timer is ever set: a timer event changes nothing, and every started
    task that settles settles the promise [add] returned the same way,
    with the very value or error, for good. *)
Theorem no_timeout_round_trip o ops c res ops' :
  let s := run ops (constructor o) in
  let p := c_promise c in
  timeout s ≤ 0 → c ∈ calls s →
  (∀ q, step (TimerFires q) s = s) ∧
  promises (run ops' (step (TaskSettles p res) s)) !! p
  = Some (outcome_state res).
Proof.
  intros s p Ht Hc.
  pose proof (reachable_no_wrapper o ops Ht) as Hnw. fold s in Hnw.
  pose proof (reachable_wf o ops) as Hwf. fold s in Hwf.
  split.
  - intros q. simpl. unfold timer_fires.
    destruct (lookup_call q (calls s)) as [c'|] eqn:Hlk; [| done].
    apply lookup_call_Some in Hlk as [Hc' _]. by rewrite (Hnw c' Hc').
  - destruct (wf_disjoint s Hwf) as (_ & Hnd & _ & _).
    pose proof (Hnw c Hc) as Hw.
    assert (Ha : awaited c = true) by (unfold awaited; by rewrite Hw).
    pose proof (wf_awaited s Hwf c Hc Ha) as Hpend.
    pose proof (lookup_call_unique p (calls s) c Hnd Hc eq_refl) as Hlk.
    apply settled_run; [| by destruct res].
    simpl. unfold task_settles. rewrite Hlk, Hw.
    by apply runTask_resume_settles.
Qed.

Lemma no_timeout_round_trip_witness :
  promises (run [Add "b" None]
              (step (TaskSettles 0 (Rejects (OtherError "failed")))
                 (run [Add "a" None] (constructor no_options)))) !! 0%nat
  = Some (Rejected (OtherError "failed")).
Proof.
  refine (proj2 (no_timeout_round_trip no_options [Add "a" None]
                   {| c_promise := 0; c_task := "a"; c_wrapper := None |}
                   (Rejects (OtherError "failed")) [Add "b" None] _ _)).
  - vm_compute. discriminate.
  - vm_compute. apply list_elem_of_here.
Defined.

(** *** Equal priorities: first added, first started *)

Lemma fifo_priority a b : fifo a b → priority a ≤ priority b.
Proof. intros [?|[? _]]; lia. Qed.

Lemma fifo_asym a b : fifo a b → fifo b a → False.
Proof. intros [?|[? ?]] [?|[? ?]]; lia. Qed.

Lemma sort_insert_fifo x l :
  StronglySorted fifo l →
  (∀ y, y ∈ l → priority y = priority x → (promise x < promise y)%nat) →
  StronglySorted fifo (sort_insert (λ a b, priority a - priority b) x l).
Proof.
  induction 1 as [|y l Hl IH Hy]; intros Hold; simpl.
  - repeat constructor.
  - rewrite Forall_forall in Hy.
    destruct (priority x - priority y <=? 0) eqn:Hc.
    + apply Z.leb_le in Hc. constructor; [by constructor; [| apply Forall_forall] |].
      apply Forall_forall. intros z Hz.
      assert (Hyz : priority y ≤ priority z).
      { apply elem_of_cons in Hz as [->|Hz]; [lia |].
        by apply fifo_priority, Hy. }
      destruct (decide (priority x = priority z)) as [Heq|Hne].
      * right. split; [done |]. by apply Hold.
      * left. lia.
    + apply Z.leb_gt in Hc. constructor.
      * apply IH. intros z Hz. apply Hold. by right.
      * apply Forall_forall. intros z. rewrite sort_insert_perm.
        intros [->|Hz]%elem_of_cons; [left; lia | by apply Hy].
Qed.

Lemma Array_sort_fifo tq e :
  StronglySorted fifo tq →
  (∀ y, y ∈ tq → (promise y < promise e)%nat) →
  StronglySorted fifo (Array_sort (λ a b, priority a - priority b) (tq ++ [e])).
Proof.
  induction 1 as [|x l Hl IH Hx]; intros Hnew; simpl.
  - repeat constructor.
  - rewrite Forall_forall in Hx. apply sort_insert_fifo.
    + apply IH. intros y Hy. apply Hnew. by right.
    + intros y. rewrite Array_sort_perm.
      intros [Hy|Hy%list_elem_of_singleton]%elem_of_app Heq.
      * destruct (Hx y Hy) as [?|[_ ?]]; [lia | done].
      * subst y. apply Hnew. by left.
Qed.

Lemma sorted_lookup {A} (R : A → A → Prop) l i j x y :
  StronglySorted R l → (i < j)%nat →
  l !! i = Some x → l !! j = Some y → R x y.
Proof.
  intros Hs. revert i j. induction Hs as [|z l Hl IH Hz]; intros i j Hlt Hi Hj.
  - done.
  - rewrite Forall_forall in Hz. destruct i as [|i], j as [|j]; simpl in *;
      try lia.
    + simplify_eq. apply Hz. by eapply list_elem_of_lookup_2.
    + apply (IH i j); [lia | done | done].
Qed.

Lemma fifo_position l i j a b :
  StronglySorted fifo l → l !! i = Some a → l !! j = Some b → fifo a b →
  (i < j)%nat.
Proof.
  intros Hs Hi Hj Hab.
  destruct (Nat.lt_trichotomy i j) as [?|[->|Hji]]; [done | |].
  - exfalso. assert (a = b) as -> by congruence. by eapply fifo_asym.
  - exfalso. eapply fifo_asym; [exact Hab |].
    by apply (sorted_lookup fifo l j i).
Qed.

(** What one step does to the waiting array, the starts and the number of
    promises: [tq1] is the array before the dispatch of the step, if any,
    and the first [k] entries of it are started. *)
Lemma runTask_resume_view p o s :
  no_listener "active" s →
  ∃ k : nat,
    taskQueue (runTask_resume p o s) = drop k (taskQueue s) ∧
    started (runTask_resume p o s)
    = started s ++ (promise <$> take k (taskQueue s)) ∧
    length (promises (runTask_resume p o s)) = length (promises s).
Proof.
  intros Hq. unfold runTask_resume.
  set (s1 := match o with Resolves _ => _ | Rejects _ => _ end).
  assert (H1 : no_listener "active" s1 ∧ taskQueue s1 = taskQueue s ∧
               started s1 = started s ∧
               length (promises s1) = length (promises s)).
  { subst s1. destruct o; (split; [by apply no_listener_emit |]);
      (split; [done |]); (split; [done |]); rewrite emit_length; simpl;
      by rewrite settle_length. }
  destruct H1 as (Hq1 & Htq1 & Hst1 & Hn1).
  set (s2 := set_runningTasks (runningTasks s1 - 1) s1).
  set (s3 := if paused s2 then s2 else processQueue s2).
  assert (H3 : ∃ k : nat, taskQueue s3 = drop k (taskQueue s) ∧
                 started s3 = started s ++ (promise <$> take k (taskQueue s)) ∧
                 length (promises s3) = length (promises s)).
  { subst s3. destruct (paused s2).
    - exists 0%nat. simpl. by rewrite app_nil_r.
    - destruct (processQueue_batch s2) as (k & _ & -> & _); [done |].
      exists k. simpl. by rewrite Htq1, Hst1. }
  destruct H3 as (k & E1 & E2 & E3). exists k.
  rewrite emit_length.
  destruct (bool_decide (taskQueue s3 = []) && (runningTasks s3 =? 0));
    rewrite ?emit_length; done.
Qed.

Lemma step_view op s :
  wf s →
  ∃ tq1 n1 (k : nat),
    taskQueue (step op s) = drop k tq1 ∧
    started (step op s) = started s ++ (promise <$> take k tq1) ∧
    length (promises (step op s)) = n1 ∧
    ((tq1 = taskQueue s ∧
      (n1 = length (promises s) ∨ n1 = S (length (promises s)))) ∨
     (tq1 = [] ∧ n1 = length (promises s)) ∨
     (∃ e, promise e = length (promises s) ∧
           tq1 = Array_sort (λ a b, priority a - priority b)
                   (taskQueue s ++ [e]) ∧
           n1 = S (length (promises s)))).
Proof.
  intros Hwf.
  assert (Hq : no_listener "active" s) by (by apply wf_no_listener).
  destruct op; simpl.
  - set (e := {| task := t; promise := length (promises s);
                 priority := default 0 o_priority |}).
    exists (Array_sort (λ a b, priority a - priority b) (taskQueue s ++ [e])),
           (S (length (promises s))).
    unfold add; simpl. fold e.
    match goal with |- context [if ?c then processQueue ?x else ?x] =>
      set (s2 := x); destruct c end.
    + destruct (processQueue_batch s2) as (k & _ & -> & _).
      { by apply no_listener_emit. }
      exists k. simpl. rewrite fire_length, length_app. simpl.
      repeat split; [lia |]. right; right. by exists e.
    + exists 0%nat. simpl. rewrite app_nil_r, fire_length, length_app. simpl.
      repeat split; [lia |]. right; right. by exists e.
  - exists (taskQueue s), (length (promises s)), 0%nat. simpl.
    rewrite app_nil_r. repeat split. left. auto.
  - exists (taskQueue s), (length (promises s)).
    unfold start. destruct (paused s).
    + destruct (processQueue_batch (set_paused false s)) as (k & _ & -> & _);
        [done |].
      exists k. simpl. repeat split. left. auto.
    + exists 0%nat. simpl. rewrite app_nil_r. repeat split. left. auto.
  - exists [], (length (promises s)), 0%nat. simpl. rewrite app_nil_r.
    repeat split. right; left. auto.
  - exists (taskQueue s), (S (length (promises s))), 0%nat.
    unfold onEmpty; simpl. rewrite app_nil_r.
    case_match; simpl; rewrite ?settle_length, length_app; simpl;
      (repeat split; [lia |]); left; auto.
  - exists (taskQueue s), (S (length (promises s))), 0%nat.
    unfold onIdle; simpl. rewrite app_nil_r.
    case_match; simpl; rewrite ?settle_length, length_app; simpl;
      (repeat split; [lia |]); left; auto.
  - exists (taskQueue s), (length (promises s)).
    unfold task_settles.
    destruct (lookup_call p (calls s)) as [c|].
    + destruct (runTask_resume_view p o (set_calls (remove_call p (calls s)) s))
        as (k & E1 & E2 & E3); [done |].
      destruct (c_wrapper c) as [[| |]|];
        try (exists k; repeat split; try done; left; auto);
        (exists 0%nat; simpl; rewrite app_nil_r; repeat split; left; auto).
    + exists 0%nat. simpl. rewrite app_nil_r. repeat split. left. auto.
  - exists (taskQueue s), (length (promises s)).
    unfold timer_fires.
    destruct (lookup_call p (calls s)) as [c|].
    + destruct (runTask_resume_view p (Rejects timeout_error)
                  (set_calls (update_call p (Rejected timeout_error) (calls s)) s))
        as (k & E1 & E2 & E3); [done |].
      destruct (c_wrapper c) as [[| |]|];
        try (exists k; repeat split; try done; left; auto);
        (exists 0%nat; simpl; rewrite app_nil_r; repeat split; left; auto).
    + exists 0%nat. simpl. rewrite app_nil_r. repeat split. left. auto.
Qed.

Lemma fifo_sorted_step op s :
  wf s → StronglySorted fifo (taskQueue s) →
  StronglySorted fifo (taskQueue (step op s)).
Proof.
  intros Hwf Hs.
  destruct (step_view op s Hwf) as (tq1 & n1 & k & -> & _ & _ & Hcase).
  assert (H1 : StronglySorted fifo tq1).
  { destruct Hcase as [[-> _]|[[-> _]|(e & He & -> & _)]];
      [done | constructor |].
    apply Array_sort_fifo; [done |].
    intros y Hy. rewrite He. apply (wf_alloc s Hwf). unfold ids.
    apply elem_of_app. left. by apply list_elem_of_fmap_2. }
  rewrite <- (take_drop k tq1) in H1.
  by apply StronglySorted_app_1_r in H1.
Qed.

Lemma reachable_fifo_sorted o ops :
  let s := run ops (constructor o) in
  wf s ∧ StronglySorted fifo (taskQueue s).
Proof.
  apply (run_invariant (λ s, wf s ∧ StronglySorted fifo (taskQueue s))).
  - intros op s [Hwf Hs]. split; [by apply wf_step | by apply fifo_sorted_step].
  - split; [apply wf_constructor | constructor].
Qed.

(** A new entry joins the waiting array, whatever the priorities are. *)
Lemma in_order_enqueue a b e tq tq' st n :
  tq' ≡ₚ e :: tq → promise e = n →
  in_order a b tq st n → in_order a b tq' st (S n).
Proof.
  intros Hperm He (Ha & Hb & Hcase).
  assert (Hown : ∀ x, own x tq n → own x tq' (S n)).
  { intros x [Hlt Hx]. split; [lia |]. intros e'. rewrite Hperm.
    intros [->|Hin]%elem_of_cons Heq; [lia | by apply Hx]. }
  split; [by apply Hown |]. split; [by apply Hown |].
  destruct Hcase as [[Hnb Hw]|Hbef]; [left | by right].
  split; [done |]. rewrite Hperm.
  intros [->|Hin]%elem_of_cons; [destruct Hb; lia |].
  destruct (Hw Hin) as [?|?]; [by left |]. right. by right.
Qed.

Section FirstInFirstOut.
Variables a b : Entry.
Hypothesis earlier : fifo a b.

Lemma in_order_dispatch_fifo tq st n k :
  StronglySorted fifo tq →
  in_order a b tq st n →
  in_order a b (drop k tq) (st ++ (promise <$> take k tq)) n.
Proof.
  intros Hs (Ha & Hb & Hcase).
  split; [eapply own_subseteq; [apply subseteq_drop | | exact Ha]; lia |].
  split; [eapply own_subseteq; [apply subseteq_drop | | exact Hb]; lia |].
  destruct Hcase as [[Hnb Hw]|Hbef]; [| right; by apply before_app_r].
  destruct (decide (promise b ∈ promise <$> take k tq)) as [Hin|Hnin].
  - right. apply list_elem_of_fmap in Hin as (e & Heq & He).
    assert (e = b) as ->.
    { apply Hb; [| done]. by apply (subseteq_take k tq). }
    pose proof He as Hbk. apply elem_of_take in Hbk as (j & Hj & Hjk).
    destruct Hw as [Hast|Hatq]; [by eapply list_elem_of_lookup_2 | |].
    + apply before_app; [done | by apply list_elem_of_fmap_2].
    + apply list_elem_of_lookup in Hatq as (i & Hi).
      pose proof (fifo_position tq i j a b Hs Hi Hj earlier) as Hij.
      apply before_app_l. apply (before_lookup _ i j).
      * rewrite list_lookup_fmap, lookup_take_lt by lia. by rewrite Hi.
      * rewrite list_lookup_fmap, lookup_take_lt by lia. by rewrite Hj.
      * done.
  - left. split.
    + intros [?|?]%elem_of_app; done.
    + intros Hbd. apply (subseteq_drop k tq) in Hbd.
      destruct (Hw Hbd) as [Hast|Hatq].
      * left. apply elem_of_app. by left.
      * rewrite <- (take_drop k tq) in Hatq.
        apply elem_of_app in Hatq as [Hat|Had]; [| by right].
        left. apply elem_of_app. right. by apply list_elem_of_fmap_2.
Qed.

Lemma ordered_step_fifo op s :
  wf s → StronglySorted fifo (taskQueue s) →
  ordered a b s → ordered a b (step op s).
Proof.
  intros Hwf Hs Ho. unfold ordered in *.
  destruct (step_view op s Hwf) as (tq1 & n1 & k & -> & -> & -> & Hcase).
  destruct Hcase as [[-> [->| ->]]|[[-> ->]|(e & He & -> & ->)]].
  - by apply in_order_dispatch_fifo.
  - apply in_order_dispatch_fifo; [done |]. by apply in_order_new_promise.
  - apply in_order_dispatch_fifo; [constructor |]. by eapply in_order_clear.
  - apply in_order_dispatch_fifo.
    + apply Array_sort_fifo; [done |].
      intros y Hy. rewrite He. apply (wf_alloc s Hwf). unfold ids.
      apply elem_of_app. left. by apply list_elem_of_fmap_2.
    + apply (in_order_enqueue a b e (taskQueue s)); [| done | done].
      rewrite Array_sort_perm. solve_Permutation.
Qed.

Lemma ordered_run_fifo ops s :
  wf s → StronglySorted fifo (taskQueue s) → ordered a b s →
  ordered a b (run ops s).
Proof.
  intros Hwf Hs Ho.
  assert (H : wf (run ops s) ∧ StronglySorted fifo (taskQueue (run ops s)) ∧
              ordered a b (run ops s)).
  { apply (run_invariant
             (λ x, wf x ∧ StronglySorted fifo (taskQueue x) ∧ ordered a b x));
      [| done].
    intros op x (Hx1 & Hx2 & Hx3). split; [by apply wf_step |].
    split; [by apply fifo_sorted_step | by apply ordered_step_fifo]. }
  apply H.
Qed.
End FirstInFirstOut.

(** X12: among waiting entries of equal priority the one added first (the
    one with the older promise) comes first in the waiting array, and
    whatever happens next, if the later one has been started then the
    earlier one was started before it: the sort of [add] is stable. *)
Theorem equal_priority_first_in_first_out o ops a b ops' :
  let s := run ops (constructor o) in
  let s' := run ops' s in
  a ∈ taskQueue s → b ∈ taskQueue s →
  priority a = priority b → (promise a < promise b)%nat →
  (∃ i j : nat, (i < j)%nat ∧ taskQueue s !! i = Some a ∧
                taskQueue s !! j = Some b) ∧
  (promise b ∈ started s' → before (promise a) (promise b) (started s')).
Proof.
  intros s s' Ha Hb Hp Hid.
  destruct (reachable_fifo_sorted o ops) as [Hwf Hs]. fold s in Hwf, Hs.
  assert (Hab : fifo a b) by (right; by split).
  split.
  - apply list_elem_of_lookup in Ha as (i & Hi).
    apply list_elem_of_lookup in Hb as (j & Hj).
    exists i, j. split; [| done]. by apply (fifo_position (taskQueue s) i j a b).
  - destruct (wf_disjoint s Hwf) as (Hnd & _ & _ & _).
    assert (Hown : ∀ x, x ∈ taskQueue s →
                        own x (taskQueue s) (length (promises s))).
    { intros x Hx. split.
      - apply (wf_alloc s Hwf). unfold ids. apply elem_of_app. left.
        by apply list_elem_of_fmap_2.
      - intros e He Heq. by apply (NoDup_fmap_eq promise (taskQueue s)). }
    assert (H0 : ordered a b s).
    { split; [by apply Hown |]. split; [by apply Hown |]. left. split.
      - intros Hst. apply (wf_started s Hwf) in Hst as [_ Hst].
        apply Hst. by apply list_elem_of_fmap_2.
      - intros _. by right. }
    destruct (ordered_run_fifo a b Hab ops' s Hwf Hs H0)
      as (_ & _ & [[Hnb _]|Hbef]); [done | by intros _].
Qed.

Lemma equal_priority_first_in_first_out_witness :
  2%nat ∈ started
    (run [Start; TaskSettles 0 (Resolves (str "Task 1 result"))]
       (run [Add "Task 1" (Some 2); Add "Task 2" (Some 3);
             Add "Task 3" (Some 2)]
          (constructor {| o_concurrency := Some (Finite 1); o_timeout := None;
                          o_throwOnTimeout := None;
                          o_autoStart := Some false |}))) ∧
  before 0%nat 2%nat
    (started
       (run [Start; TaskSettles 0 (Resolves (str "Task 1 result"))]
          (run [Add "Task 1" (Some 2); Add "Task 2" (Some 3);
                Add "Task 3" (Some 2)]
             (constructor {| o_concurrency := Some (Finite 1);
                             o_timeout := None; o_throwOnTimeout := None;
                             o_autoStart := Some false |})))).
Proof.
  assert (Hin : 2%nat ∈ started
    (run [Start; TaskSettles 0 (Resolves (str "Task 1 result"))]
       (run [Add "Task 1" (Some 2); Add "Task 2" (Some 3);
             Add "Task 3" (Some 2)]
          (constructor {| o_concurrency := Some (Finite 1); o_timeout := None;
                          o_throwOnTimeout := None;
                          o_autoStart := Some false |}))))
    by (vm_compute; apply list_elem_of_further, list_elem_of_here).
  split; [exact Hin |].
  refine (proj2 (equal_priority_first_in_first_out
                   {| o_concurrency := Some (Finite 1); o_timeout := None;
                      o_throwOnTimeout := None; o_autoStart := Some false |}
                   [Add "Task 1" (Some 2); Add "Task 2" (Some 3);
                    Add "Task 3" (Some 2)]
                   {| task := "Task 1"; promise := 0; priority := 2 |}
                   {| task := "Task 3"; promise := 2; priority := 2 |}
                   [Start; TaskSettles 0 (Resolves (str "Task 1 result"))]
                   _ _ _ _) Hin).
  - vm_compute. apply list_elem_of_here.
  - vm_compute. apply list_elem_of_further, list_elem_of_here.
  - reflexivity.
  - simpl. lia.
Defined.

(** ** observeChanges *)

Lemma observe_snoc seen v ob :
  observe (seen ++ [v]) ob = observerCallback v (observe seen ob).
Proof. unfold observe. by rewrite foldl_app. Qed.

Lemma observerCallback_old v ob : oldParamValue (observerCallback v ob) = v.
Proof.
  unfold observerCallback. destruct (decide (oldParamValue ob ≠ v)) as [|Heq];
    [done |]. by apply dec_stable in Heq.
Qed.

Lemma no_repeat_snoc {A} (l : list A) x y :
  no_repeat (l ++ [x]) → x ≠ y → no_repeat ((l ++ [x]) ++ [y]).
Proof.
  induction l as [|z l IH]; simpl; [done |].
  destruct l as [|z' l]; simpl in *; [intros [? _] ?; done |].
  intros [? ?] ?. split; [done |]. by apply IH.
Qed.

(** The value kept in [oldParamValue] is the last one passed to the
    callback, or the first one read. *)
Lemma observe_last initial seen :
  last (initial :: callback_args (observe seen (observeChanges initial)))
  = Some (oldParamValue (observe seen (observeChanges initial))).
Proof.
  induction seen as [|v seen IH] using rev_ind; [done |].
  rewrite observe_snoc. unfold observerCallback.
  destruct (decide (oldParamValue (observe seen (observeChanges initial)) ≠ v));
    [| done].
  simpl callback_args. simpl oldParamValue.
  by rewrite app_comm_cons, last_snoc.
Qed.

(** X13: the callback is never called with the value it was called with
    last, and its first call is never with the value the parameter had
    when [observeChanges] was called. *)
Theorem callback_never_repeats initial seen :
  no_repeat (initial :: callback_args (observe seen (observeChanges initial))).
Proof.
  induction seen as [|v seen IH] using rev_ind; [done |].
  rewrite observe_snoc. unfold observerCallback.
  pose proof (observe_last initial seen) as Hlast.
  destruct (decide (oldParamValue (observe seen (observeChanges initial)) ≠ v))
    as [Hne|_]; [| done].
  simpl callback_args. rewrite app_comm_cons.
  set (l := initial :: callback_args (observe seen (observeChanges initial))) in *.
  destruct (last l) as [w|] eqn:Hw; [| done].
  apply last_Some in Hw as [l' Hl]. rewrite Hl in *.
  apply no_repeat_snoc; [done |]. congruence.
Qed.

(** X14: after any number of runs of the handler, [oldParamValue] is the
    value seen last, and so is the last argument the callback got (or, if
    it was never called, the value read first). *)
Theorem callback_in_sync initial seen :
  let ob := observe seen (observeChanges initial) in
  oldParamValue ob = default initial (last seen) ∧
  last (initial :: callback_args ob) = Some (default initial (last seen)).
Proof.
  intros ob.
  assert (H : oldParamValue ob = default initial (last seen)).
  { subst ob. destruct seen as [|v seen] using rev_ind; [done |].
    by rewrite observe_snoc, observerCallback_old, last_snoc. }
  split; [done |]. rewrite <- H. apply observe_last.
Qed.

(** X15: the callback is never called exactly when every value seen is the
    value read first. *)
Theorem callback_silent_iff initial seen :
  callback_args (observe seen (observeChanges initial)) = [] ↔
  ∀ v, v ∈ seen → v = initial.
Proof.
  induction seen as [|v seen IH] using rev_ind.
  - split; [by intros _ ? []%elem_of_nil | done].
  - rewrite observe_snoc. unfold observerCallback.
    pose proof (observe_last initial seen) as Hlast.
    destruct (decide (oldParamValue (observe seen (observeChanges initial)) ≠ v))
      as [Hne|Heq].
    + simpl callback_args. split.
      * intros H. by apply app_nil in H as [_ ?].
      * intros Hall. exfalso. apply Hne.
        assert (Hsilent : callback_args (observe seen (observeChanges initial)) = []).
        { apply IH. intros w Hw. apply Hall. apply elem_of_app. by left. }
        rewrite Hsilent in Hlast. simpl in Hlast.
        assert (v = initial) as ->
          by (apply Hall; apply elem_of_app; right; apply list_elem_of_here).
        congruence.
    + apply dec_stable in Heq. rewrite IH. split.
      * intros Hall w [Hw|Hw%list_elem_of_singleton]%elem_of_app; [by apply Hall |].
        subst w. rewrite <- Heq.
        assert (Hsilent : callback_args (observe seen (observeChanges initial)) = [])
          by (by apply IH).
        rewrite Hsilent in Hlast. simpl in Hlast. congruence.
      * intros Hall w Hw. apply Hall. apply elem_of_app. by left.
Qed.

(** X16: the callback gets values that were seen, in the order they were
    seen: its arguments are a sublist of the values seen. *)
Theorem callback_args_seen initial seen :
  callback_args (observe seen (observeChanges initial)) `sublist_of` seen.
Proof.
  induction seen as [|v seen IH] using rev_ind; [done |].
  rewrite observe_snoc. unfold observerCallback.
  destruct (decide (oldParamValue (observe seen (observeChanges initial)) ≠ v)).
  - simpl callback_args. by apply sublist_app.
  - by apply sublist_inserts_r.
Qed.

(** ** The flag [throwOnTimeout] *)

Lemma processQueue_loop_flag b w s :
  processQueue_loop w (set_throwOnTimeout b s)
  = set_throwOnTimeout b (processQueue_loop w s).
Proof.
  revert s. induction w as [|e w IH]; intros s; simpl; [done |].
  case_match; [| done].
  change (runTask e (set_taskQueue w (set_throwOnTimeout b s)))
    with (set_throwOnTimeout b (runTask e (set_taskQueue w s))).
  apply IH.
Qed.

Lemma runTask_resume_flag b p o s :
  runTask_resume p o (set_throwOnTimeout b s)
  = set_throwOnTimeout b (runTask_resume p o s).
Proof.
  unfold runTask_resume.
  set (s1 := match o with Resolves _ => _ | Rejects _ => _ end).
  set (s1' := match o with Resolves _ => _ | Rejects _ => _ end).
  assert (H1 : s1 = set_throwOnTimeout b s1') by (subst s1 s1'; by destruct o).
  rewrite H1. clearbody s1'. clear H1 s1.
  set (s2 := set_runningTasks (runningTasks s1' - 1) s1').
  change (set_runningTasks (runningTasks (set_throwOnTimeout b s1') - 1)
            (set_throwOnTimeout b s1')) with (set_throwOnTimeout b s2).
  assert (H3 : (if paused (set_throwOnTimeout b s2)
                then set_throwOnTimeout b s2
                else processQueue (set_throwOnTimeout b s2))
               = set_throwOnTimeout b
                   (if paused s2 then s2 else processQueue s2)).
  { change (paused (set_throwOnTimeout b s2)) with (paused s2).
    destruct (paused s2); [done |].
    exact (processQueue_loop_flag b (taskQueue s2) s2). }
  rewrite H3. set (s3 := if paused s2 then s2 else processQueue s2).
  simpl. by destruct (bool_decide (taskQueue s3 = []) && (runningTasks s3 =? 0)).
Qed.

Lemma step_flag b op s :
  step op (set_throwOnTimeout b s) = set_throwOnTimeout b (step op s).
Proof.
  destruct op; simpl; try done.
  - unfold add; simpl. case_match; [| done].
    unfold processQueue. by rewrite <- processQueue_loop_flag.
  - unfold start; simpl. case_match; [| done].
    unfold processQueue. by rewrite <- processQueue_loop_flag.
  - unfold onEmpty; simpl. by case_match.
  - unfold onIdle; simpl. by case_match.
  - unfold task_settles; simpl.
    destruct (lookup_call p (calls s)) as [c|]; [| done].
    destruct (c_wrapper c) as [[| |]|]; try done;
      by rewrite <- runTask_resume_flag.
  - unfold timer_fires; simpl.
    destruct (lookup_call p (calls s)) as [c|]; [| done].
    destruct (c_wrapper c) as [[| |]|]; try done.
    by rewrite <- runTask_resume_flag.
Qed.

(** X17: the option [throwOnTimeout] changes nothing: two queues
    constructed with options that differ in it only go through the same
    states under the same operations, the stored flag apart. *)
Theorem throwOnTimeout_has_no_effect o b ops :
  run ops (constructor (with_throwOnTimeout b o))
  = set_throwOnTimeout (default false b) (run ops (constructor o)).
Proof.
  induction ops as [|op ops IH] using rev_ind; [done |].
  by rewrite !run_snoc, IH, step_flag.
Qed.

(** ** "idle" with a timed-out task in flight *)

Lemma runTask_resume_last p o s :
  taskQueue s = [] → runningTasks s = 1 →
  is_idle (runTask_resume p o s) ∧
  ∃ log, emitted (runTask_resume p o s)
         = log ++ [("idle"%string, None); ("next"%string, None)].
Proof.
  intros Htq Hr. unfold runTask_resume.
  set (s1 := match o with Resolves _ => _ | Rejects _ => _ end).
  assert (H1 : taskQueue s1 = [] ∧ runningTasks s1 = 1)
    by (subst s1; by destruct o).
  destruct H1 as [Htq1 Hr1].
  set (s2 := set_runningTasks (runningTasks s1 - 1) s1).
  assert (H3 : (if paused s2 then s2 else processQueue s2) = s2).
  { destruct (paused s2); [done |]. unfold processQueue. simpl.
    by rewrite Htq1. }
  rewrite H3.
  assert (Hc : bool_decide (taskQueue s2 = []) && (runningTasks s2 =? 0) = true).
  { simpl. by rewrite Htq1, Hr1. }
  rewrite Hc. split.
  - unfold is_idle. simpl. by rewrite Htq1, Hr1.
  - simpl. eexists. by rewrite <- app_assoc.
Qed.

(** X18: with a timeout, when the timer of the only task in flight fires
    and nothing waits, the queue counts as idle (nothing waits, the counter
    is 0, "idle" is the event before last) although the call of the task is
    still in flight. *)
Theorem idle_with_task_in_flight o ops c :
  let s := run ops (constructor o) in
  let s' := step (TimerFires (c_promise c)) s in
  c ∈ calls s → c_wrapper c = Some Pending →
  taskQueue s = [] → runningTasks s = 1 →
  is_idle s' ∧ c_promise c ∈ c_promise <$> calls s' ∧
  ∃ log, emitted s' = log ++ [("idle"%string, None); ("next"%string, None)].
Proof.
  intros s s' Hc Hw Htq Hr.
  pose proof (reachable_wf o ops) as Hwf. fold s in Hwf.
  destruct (wf_disjoint s Hwf) as (_ & Hnd & _ & _).
  pose proof (lookup_call_unique _ (calls s) c Hnd Hc eq_refl) as Hlk.
  assert (Hs' : s' = runTask_resume (c_promise c) (Rejects timeout_error)
                       (set_calls (update_call (c_promise c)
                                     (Rejected timeout_error) (calls s)) s)).
  { subst s'. simpl. unfold timer_fires. by rewrite Hlk, Hw. }
  destruct (runTask_resume_last (c_promise c) (Rejects timeout_error)
              (set_calls (update_call (c_promise c) (Rejected timeout_error)
                            (calls s)) s)) as [Hidle Hlog]; [done | done |].
  rewrite <- Hs' in Hidle, Hlog.
  split; [done |]. split; [| done].
  rewrite Hs'.
  destruct (runTask_resume_calls (c_promise c) (Rejects timeout_error)
              (set_calls (update_call (c_promise c) (Rejected timeout_error)
                            (calls s)) s)) as [extra ->].
  simpl. rewrite fmap_app, update_call_ids. apply elem_of_app. left.
  by apply list_elem_of_fmap_2.
Qed.

Lemma idle_with_task_in_flight_witness :
  is_idle (step (TimerFires 0)
             (run [Add "slow" None]
                (constructor {| o_concurrency := None; o_timeout := Some 50;
                                o_throwOnTimeout := None;
                                o_autoStart := None |}))).
Proof.
  refine (proj1 (idle_with_task_in_flight
                   {| o_concurrency := None; o_timeout := Some 50;
                      o_throwOnTimeout := None; o_autoStart := None |}
                   [Add "slow" None]
                   {| c_promise := 0; c_task := "slow";
                      c_wrapper := Some Pending |} _ _ _ _)).
  - vm_compute. apply list_elem_of_here.
  - reflexivity.
  - reflexivity.
  - reflexivity.
Defined.
